(** * simpleBlockAllocator: a fixed-size block pool with an intrusive free list

    A shallow embedding of [src/blockAllocator.cpp] (class [BlockAllocator])
    and the properties of its free-list protocol.

    - Platform: LP64, little endian.  [size_t] and every pointer are 64-bit
      unsigned quantities, represented as [Z] with the wrap-around of each
      arithmetic operation written out ([wrap]).
    - Memory is a finite map from byte addresses to byte values; a
      [Block::next] field is the eight bytes starting at the block's header
      address.  Bytes never written read as whatever the initial map holds.
    - A member function takes the state (the object's fields, memory, and
      the log of calls to the memory provider) and returns an [Outcome]
      with the state it leaves; a thrown exception is an outcome.
    - [malloc] is a parameter of the constructor; [free] is recorded in the
      log.
    - The loop of [buildBlocksList] runs on fuel, and is proved to end.
    - [std::mutex] is a boolean field; for concurrent use the statements of
      [allocate] and [deallocate] are interleaved one at a time. *)

From stdpp Require Import gmap list strings.
From Stdlib Require Import ZArith Lia.

Local Open Scope Z_scope.

(** ** Machine words *)

Definition ADDR_MOD : Z := 2 ^ 64.

(** [std::numeric_limits<size_t>::max()] *)
Definition SIZE_MAX : Z := ADDR_MOD - 1.

(** [sizeof] of a pointer to [Block] *)
Definition sizeof_ptr : Z := 8.

Definition NULL : Z := 0.

(** Reduction of a mathematical integer to a 64-bit unsigned value. *)
Definition wrap (z : Z) : Z := z `mod` ADDR_MOD.

(** ** Byte-addressed memory *)

Module Mem.

Definition read_byte (m : gmap Z Z) (a : Z) : Z := (m !!! a) `mod` 256.

Definition write_byte (m : gmap Z Z) (a v : Z) : gmap Z Z :=
  <[a := v `mod` 256]> m.

(** Little-endian load of [n] bytes starting at [a]. *)
Fixpoint load_le (n : nat) (m : gmap Z Z) (a : Z) : Z :=
  match n with
  | O => 0
  | S n' => read_byte m a + 256 * load_le n' m (a + 1)
  end.

(** Little-endian store of the low [n] bytes of [v] starting at [a]. *)
Fixpoint store_le (n : nat) (m : gmap Z Z) (a v : Z) : gmap Z Z :=
  match n with
  | O => m
  | S n' => store_le n' (write_byte m a v) (a + 1) (v / 256)
  end.

(** Reading and writing a pointer-to-[Block] object at address [a]. *)
Definition load_ptr (m : gmap Z Z) (a : Z) : Z := load_le 8 m a.
Definition store_ptr (m : gmap Z Z) (a v : Z) : gmap Z Z := store_le 8 m a v.

End Mem.

(** ** The class and its environment *)

(** [BlockAllocator::MemoryPoolType] *)
Inductive MemoryPoolType := Internal | External.

(** Namespace [BlockAllocatorExceptions]. *)
Inductive Exception :=
| OutOfSystemMemoryException
| InvalidConstructorParametersException
| OutOfAllocatableMemoryException
| InvalidBlockAddressException.

(** Calls made to the raw memory provider, in program order. *)
Inductive SysCall :=
| SysMalloc (bytes : Z) (result : Z)
| SysFree (ptr : Z).

(** The data members of [BlockAllocator]; [mutex] is [true] while the
    [std::mutex] member is held. *)
Record BlockAllocator := mkBlockAllocator {
  blockSize : Z;
  headerSize : Z;
  maxBlocks : Z;
  startHeader : Z;
  endHeader : Z;
  headHeader : Z;
  mutex : bool;
  poolType : MemoryPoolType;
  blockInUseFlag : Z;
  blockWithHeaderSize : Z
}.

(** An allocator object together with the memory it works on and the log of
    provider calls issued on its behalf. *)
Record State := mkState {
  self : BlockAllocator;
  mem : gmap Z Z;
  sys : list SysCall
}.

(** How a call ends: normally, by throwing, or not at all (blocked on a
    mutex that is never released, or a loop that exhausted its fuel). *)
Inductive Outcome (A : Type) :=
| Return (a : A)
| Throw (e : Exception)
| Hang.
Arguments Return {A} a.
Arguments Throw {A} e.
Arguments Hang {A}.

Definition set_headHeader (h : Z) (s : State) : State :=
  let b := self s in
  {| self := {| blockSize := blockSize b; headerSize := headerSize b;
                maxBlocks := maxBlocks b; startHeader := startHeader b;
                endHeader := endHeader b; headHeader := h;
                mutex := mutex b; poolType := poolType b;
                blockInUseFlag := blockInUseFlag b;
                blockWithHeaderSize := blockWithHeaderSize b |};
     mem := mem s; sys := sys s |}.

Definition set_mutex (l : bool) (s : State) : State :=
  let b := self s in
  {| self := {| blockSize := blockSize b; headerSize := headerSize b;
                maxBlocks := maxBlocks b; startHeader := startHeader b;
                endHeader := endHeader b; headHeader := headHeader b;
                mutex := l; poolType := poolType b;
                blockInUseFlag := blockInUseFlag b;
                blockWithHeaderSize := blockWithHeaderSize b |};
     mem := mem s; sys := sys s |}.

Definition set_mem (m : gmap Z Z) (s : State) : State :=
  {| self := self s; mem := m; sys := sys s |}.

Definition log_sys (c : SysCall) (s : State) : State :=
  {| self := self s; mem := mem s; sys := sys s ++ [c] |}.

(** [std::lock_guard<std::mutex> lock(mutex);] followed by [body]: the
    guard's constructor acquires the mutex, and its destructor releases it
    when the scope is left, by [return] or by an exception alike. *)
Definition lock_guard {A : Type} (body : State -> Outcome A * State)
    (s : State) : Outcome A * State :=
  if mutex (self s) then (Hang, s)
  else
    let '(r, s') := body (set_mutex true s) in
    (r, set_mutex false s').

(** ** Member functions *)

(** [BlockAllocator::getHeaderSize] (static) *)
Definition getHeaderSize : Z := sizeof_ptr.

(** [BlockAllocator::getBlockSize] *)
Definition getBlockSize (s : State) : Z := blockSize (self s).

(** [BlockAllocator::getPoolType] *)
Definition getPoolType (s : State) : MemoryPoolType := poolType (self s).

(** [BlockAllocator::isSizeCorrect] *)
Definition isSizeCorrect (b : BlockAllocator) (blockByteSize numOfBlocks : Z)
    : bool :=
  let maxBlockWithHeaderSize := SIZE_MAX / numOfBlocks in
  if maxBlockWithHeaderSize <? getHeaderSize then false
  else blockByteSize <=? wrap (maxBlockWithHeaderSize - headerSize b).

(** The [for] loop of [BlockAllocator::buildBlocksList]; [None] when [fuel]
    iterations were not enough to leave it. *)
Fixpoint buildBlocksList_loop (fuel : nat) (stride endH i : Z)
    (m : gmap Z Z) : option (gmap Z Z) :=
  match fuel with
  | O => if i <? endH then None else Some m
  | S fuel' =>
      if i <? endH then
        buildBlocksList_loop fuel' stride endH (wrap (i + stride))
          (Mem.store_ptr m i (wrap (i + stride)))
      else Some m
  end.

(** [BlockAllocator::buildBlocksList] *)
Definition buildBlocksList (fuel : nat) (s : State) : option State :=
  let b := self s in
  match buildBlocksList_loop fuel (blockWithHeaderSize b) (endHeader b)
          (startHeader b) (mem s) with
  | None => None
  | Some m => Some (set_mem (Mem.store_ptr m (endHeader b) NULL) s)
  end.

(** The object once the constructor's member initialisers have run:
    [blockSize(size), headerSize(sizeof(Block pointer)), maxBlocks(blocks)],
    the default member initialisers for the other sizes and pointers;
    [poolType] and [blockInUseFlag] are assigned in the constructor's body
    before anything reads them. *)
Definition member_init (size blocks : Z) : BlockAllocator :=
  {| blockSize := size; headerSize := sizeof_ptr; maxBlocks := blocks;
     startHeader := NULL; endHeader := NULL; headHeader := NULL;
     mutex := false; poolType := Internal; blockInUseFlag := 0;
     blockWithHeaderSize := 0 |}.

(** [BlockAllocator::BlockAllocator].  [malloc] is the raw memory provider
    (it answers [NULL] when it cannot serve a request) and [m0] the contents
    of memory when the constructor runs.  The loop of [buildBlocksList] is
    given [numOfBlocks] iterations of fuel. *)
Definition BlockAllocator_new (malloc : Z -> Z) (m0 : gmap Z Z)
    (size blocks memoryPool : Z) : Outcome State :=
  let b0 := member_init size blocks in
  if (blockSize b0 =? 0) || (maxBlocks b0 =? 0) then
    Throw InvalidConstructorParametersException
  else if negb (isSizeCorrect b0 (blockSize b0) (maxBlocks b0)) then
    Throw InvalidConstructorParametersException
  else
    let stride := wrap (blockSize b0 + headerSize b0) in
    let bytes := wrap (stride * maxBlocks b0) in
    let built (ty : MemoryPoolType) (start : Z) (log : list SysCall) :=
      let s := {| self := {| blockSize := blockSize b0;
                             headerSize := headerSize b0;
                             maxBlocks := maxBlocks b0; startHeader := start;
                             endHeader :=
                               wrap (start + wrap (stride * wrap (maxBlocks b0 - 1)));
                             headHeader := start;
                             mutex := false; poolType := ty;
                             blockInUseFlag := 1;
                             blockWithHeaderSize := stride |};
                  mem := m0; sys := log |} in
      match buildBlocksList (Z.to_nat (maxBlocks b0)) s with
      | Some s' => Return s'
      | None => Hang
      end in
    if memoryPool =? NULL then
      let p := malloc bytes in
      if p =? NULL then Throw OutOfSystemMemoryException
      else built Internal p [SysMalloc bytes p]
    else built External memoryPool [].

(** [BlockAllocator::isBlockAddress] *)
Definition isBlockAddress (s : State) (block : Z) : bool :=
  let b := self s in
  let header := wrap (block - headerSize b) in
  if (block =? NULL) || (endHeader b <? header) || (header <? startHeader b)
  then false
  else
    let reminder := wrap (header - startHeader b) `mod` blockWithHeaderSize b in
    if reminder =? 0 then true else false.

(** [BlockAllocator::isBlockInUse] *)
Definition isBlockInUse (s : State) (block : Z) : bool :=
  let b := self s in
  if negb (isBlockAddress s block) then false
  else
    let header := wrap (block - headerSize b) in
    if Mem.load_ptr (mem s) header =? blockInUseFlag b then true else false.

(** [BlockAllocator::allocate] *)
Definition allocate (s : State) : Outcome Z * State :=
  lock_guard (fun s =>
    if headHeader (self s) =? NULL then
      (Throw OutOfAllocatableMemoryException, s)
    else
      let freeBlock := headHeader (self s) in
      let s := set_headHeader (Mem.load_ptr (mem s) (headHeader (self s))) s in
      let s := set_mem (Mem.store_ptr (mem s) freeBlock
                          (blockInUseFlag (self s))) s in
      (Return (wrap (freeBlock + getHeaderSize)), s)) s.

(** [BlockAllocator::deallocate] *)
Definition deallocate (block : Z) (s : State) : Outcome unit * State :=
  lock_guard (fun s =>
    if negb (isBlockInUse s block) then
      (Throw InvalidBlockAddressException, s)
    else
      let header := wrap (block - headerSize (self s)) in
      let s := set_mem (Mem.store_ptr (mem s) header (headHeader (self s))) s in
      let s := set_headHeader header s in
      (Return tt, s)) s.

(** [BlockAllocator::~BlockAllocator] *)
Definition BlockAllocator_delete (s : State) : State :=
  match poolType (self s) with
  | Internal =>
      if negb (startHeader (self s) =? NULL)
      then log_sys (SysFree (startHeader (self s))) s
      else s
  | External => s
  end.

(** * Specification vocabulary *)

(** ** Layout of the pool *)

(** What the constructor establishes about the fields that are never written
    again.  [lay_start] and [lay_fit] describe the buffer: it is a real
    object, so it does not start at [NULL], it does not start at the address
    reserved as the in-use flag (the assumption stated in the constructor),
    and its [blockWithHeaderSize * maxBlocks] bytes end inside the address
    space. *)
Record layout_ok (b : BlockAllocator) : Prop := {
  lay_size : 1 <= blockSize b;
  lay_header : headerSize b = sizeof_ptr;
  lay_stride : blockWithHeaderSize b = blockSize b + sizeof_ptr;
  lay_blocks : 1 <= maxBlocks b;
  lay_start : 1 < startHeader b;
  lay_end : endHeader b = startHeader b + blockWithHeaderSize b * (maxBlocks b - 1);
  lay_fit : startHeader b + blockWithHeaderSize b * maxBlocks b <= ADDR_MOD;
  lay_flag : blockInUseFlag b = 1
}.

(** Address of the header of block number [k] in a buffer at [start]. *)
Definition nth_header (start stride k : Z) : Z := start + k * stride.

(** Address of the header of the last of [blocks] blocks. *)
Definition last_header (start stride blocks : Z) : Z :=
  start + stride * (blocks - 1).

(** Address of the header of block number [k]. *)
Definition header_at (b : BlockAllocator) (k : Z) : Z :=
  nth_header (startHeader b) (blockWithHeaderSize b) k.

(** [a] is the address of one of the pool's [maxBlocks] headers. *)
Definition is_header (b : BlockAllocator) (a : Z) : Prop :=
  exists k, 0 <= k < maxBlocks b /\ a = header_at b k.

(** The fields fixed at construction. *)
Definition same_layout (b b' : BlockAllocator) : Prop :=
  blockSize b' = blockSize b /\ headerSize b' = headerSize b /\
  maxBlocks b' = maxBlocks b /\ startHeader b' = startHeader b /\
  endHeader b' = endHeader b /\ poolType b' = poolType b /\
  blockInUseFlag b' = blockInUseFlag b /\
  blockWithHeaderSize b' = blockWithHeaderSize b.

(** ** The free list *)

(** The list of header addresses met when following [next] from [h] up to
    the first [NULL]. *)
Fixpoint chain (m : gmap Z Z) (h : Z) (l : list Z) : Prop :=
  match l with
  | [] => h = NULL
  | a :: l' => h = a /\ a <> NULL /\ chain m (Mem.load_ptr m a) l'
  end.

(** The representation invariant of a pool whose free blocks are [fl], in
    free-list order. *)
Record pool_inv (s : State) (fl : list Z) : Prop := {
  inv_layout : layout_ok (self s);
  inv_unlocked : mutex (self s) = false;
  inv_chain : chain (mem s) (headHeader (self s)) fl;
  inv_nodup : NoDup fl;
  inv_free : forall a, a ∈ fl -> is_header (self s) a;
  inv_used : forall a, is_header (self s) a -> a ∉ fl ->
             Mem.load_ptr (mem s) a = blockInUseFlag (self s)
}.

(** The free list of a pool that has just been built: every header, in
    ascending address order. *)
Definition fresh_list (b : BlockAllocator) : list Z :=
  header_at b <$> seqZ 0 (maxBlocks b).

(** The blocks in use are those whose header is not on the free list. *)
Definition live_blocks (s : State) (fl : list Z) (live : gset Z) : Prop :=
  forall x, x ∈ live <-> is_header (self s) (x - sizeof_ptr) /\ (x - sizeof_ptr) ∉ fl.

(** What the free list looks like when [live] is the set of addresses handed
    out: following [next] from [headHeader] gives a finite list [fl] of
    headers that ends at [NULL], has no repetition, holds exactly the
    headers of the blocks that are not handed out, and every header outside
    it holds the in-use flag. *)
Definition free_list_ok (s : State) (live : gset Z) : Prop :=
  exists fl,
    chain (mem s) (headHeader (self s)) fl /\
    NoDup fl /\
    (forall a, a ∈ fl <-> is_header (self s) a /\ (a + getHeaderSize) ∉ live) /\
    (forall a, is_header (self s) a -> a ∉ fl ->
               Mem.load_ptr (mem s) a = blockInUseFlag (self s)).

(** ** Requests and buffers *)

(** The buffer the constructor works on: the caller's, or the one obtained
    from the provider. *)
Definition buffer_of (malloc : Z -> Z) (size blocks memoryPool : Z) : Z :=
  if memoryPool =? NULL then malloc ((size + sizeof_ptr) * blocks)
  else memoryPool.

(** A request the size check accepts. *)
Definition accepted (size blocks : Z) : Prop :=
  1 <= size /\ 1 <= blocks /\ (size + sizeof_ptr) * blocks <= SIZE_MAX.

(** The buffer is a real object of the required size: it does not start at
    [NULL] or at the address reserved for the in-use flag, and it ends
    inside the address space. *)
Definition usable_buffer (start size blocks : Z) : Prop :=
  1 < start /\ start + (size + sizeof_ptr) * blocks <= ADDR_MOD.

(** The pool [s0] is what the constructor returned for a request within the
    range of [size_t], over a usable buffer. *)
Record constructed (malloc : Z -> Z) (m0 : gmap Z Z)
    (size blocks memoryPool : Z) (s0 : State) : Prop := {
  cons_size : 0 <= size <= SIZE_MAX;
  cons_blocks : 0 <= blocks <= SIZE_MAX;
  cons_buffer : usable_buffer (buffer_of malloc size blocks memoryPool)
                  size blocks;
  cons_return : BlockAllocator_new malloc m0 size blocks memoryPool = Return s0
}.

(** Addresses handed out by a freshly built pool, in order. *)
Definition fresh_addresses (start size blocks : Z) : list Z :=
  (fun k => start + getHeaderSize + k * (size + getHeaderSize))
    <$> seqZ 0 blocks.

(** ** Lifetimes of a pool *)

(** [reachable s0 s live]: the state [s] is reached from the freshly built
    pool [s0] by calls of [allocate] and [deallocate], whether they return
    or throw; [live] is the set of addresses that [allocate] has returned and
    that have not been handed back by a [deallocate] that returned. *)
Inductive reachable (s0 : State) : State -> gset Z -> Prop :=
| reach_new : reachable s0 s0 ∅
| reach_allocate s live r s' :
    reachable s0 s live ->
    allocate s = (r, s') ->
    reachable s0 s' (match r with Return x => {[x]} ∪ live | _ => live end)
| reach_deallocate s live x r s' :
    reachable s0 s live ->
    0 <= x < ADDR_MOD ->
    deallocate x s = (r, s') ->
    reachable s0 s' (match r with Return _ => live ∖ {[x]} | _ => live end).

(** [n] calls of [allocate] in a row, with the outcome of each. *)
Fixpoint allocate_n (n : nat) (s : State) : list (Outcome Z) * State :=
  match n with
  | O => ([], s)
  | S n' =>
      let '(r, s1) := allocate s in
      let '(rs, s2) := allocate_n n' s1 in
      (r :: rs, s2)
  end.

(** The calls [deallocate x] for the [x] of a list, in order; the state
    after the last. *)
Fixpoint deallocate_all (xs : list Z) (s : State) : State :=
  match xs with
  | [] => s
  | x :: xs' => deallocate_all xs' (snd (deallocate x s))
  end.

(** ** Threads

    Threads run [allocate] and [deallocate] one statement at a time, and the
    statements of different threads interleave in any order.  The
    [std::mutex] is the boolean [mutex] of the object: the constructor of
    the [lock_guard] can only run while it is [false] and sets it, the
    destructor of the guard clears it. *)

(** Where a thread is in its program
    [for (i = 0; i < M; i++) { x = allocate(); deallocate(x); }]. *)
Inductive Loc :=
| Outside                        (* between two cycles *)
| AllocEnter                     (* in allocate, before the guard locks *)
| AllocTest                      (* at the test of headHeader against NULL *)
| AllocThrow                     (* thrown; the guard is to be destroyed *)
| AllocPop (freeBlock : Z)       (* at headHeader = headHeader->next *)
| AllocMark (freeBlock : Z)      (* at freeBlock->next = blockInUseFlag *)
| AllocReturn (freeBlock : Z)    (* at return; the guard is to be destroyed *)
| Holding (block : Z)            (* between allocate and deallocate *)
| DeallocEnter (block : Z)       (* in deallocate, before the guard locks *)
| DeallocTest (block : Z)        (* at the test of isBlockInUse *)
| DeallocThrow (block : Z)       (* thrown; the guard is to be destroyed *)
| DeallocLink (block header : Z) (* at header->next = headHeader *)
| DeallocHead (block header : Z) (* at headHeader = header *)
| DeallocReturn (block : Z).     (* at the end; the guard is to be destroyed *)

Record Thread := mkThread { loc : Loc; cycles : nat }.

(** The thread is between the construction and the destruction of a
    [lock_guard]. *)
Definition in_critical (l : Loc) : bool :=
  match l with
  | Outside | AllocEnter | Holding _ | DeallocEnter _ => false
  | _ => true
  end.

(** The block address the thread has obtained from [allocate] and not yet
    seen [deallocate] return for. *)
Definition held (l : Loc) : option Z :=
  match l with
  | Holding x | DeallocEnter x | DeallocTest x | DeallocThrow x
  | DeallocLink x _ | DeallocHead x _ | DeallocReturn x => Some x
  | _ => None
  end.

(** One statement of a thread; [None] when the thread cannot move: it has
    finished, or it waits for the mutex.  A thread whose [allocate] threw
    tries again, and so does one whose [deallocate] threw. *)
Definition thread_step (t : Thread) (s : State) : option (Thread * State) :=
  let at_ l := mkThread l (cycles t) in
  match loc t with
  | Outside =>
      match cycles t with
      | O => None
      | S _ => Some (at_ AllocEnter, s)
      end
  | AllocEnter =>
      if mutex (self s) then None
      else Some (at_ AllocTest, set_mutex true s)
  | AllocTest =>
      if headHeader (self s) =? NULL then Some (at_ AllocThrow, s)
      else Some (at_ (AllocPop (headHeader (self s))), s)
  | AllocThrow => Some (at_ Outside, set_mutex false s)
  | AllocPop freeBlock =>
      Some (at_ (AllocMark freeBlock),
            set_headHeader (Mem.load_ptr (mem s) (headHeader (self s))) s)
  | AllocMark freeBlock =>
      Some (at_ (AllocReturn freeBlock),
            set_mem (Mem.store_ptr (mem s) freeBlock (blockInUseFlag (self s))) s)
  | AllocReturn freeBlock =>
      Some (at_ (Holding (wrap (freeBlock + getHeaderSize))), set_mutex false s)
  | Holding x => Some (at_ (DeallocEnter x), s)
  | DeallocEnter x =>
      if mutex (self s) then None
      else Some (at_ (DeallocTest x), set_mutex true s)
  | DeallocTest x =>
      if negb (isBlockInUse s x) then Some (at_ (DeallocThrow x), s)
      else Some (at_ (DeallocLink x (wrap (x - headerSize (self s)))), s)
  | DeallocThrow x => Some (at_ (Holding x), set_mutex false s)
  | DeallocLink x header =>
      Some (at_ (DeallocHead x header),
            set_mem (Mem.store_ptr (mem s) header (headHeader (self s))) s)
  | DeallocHead x header =>
      Some (at_ (DeallocReturn x), set_headHeader header s)
  | DeallocReturn x =>
      Some (mkThread Outside (Nat.pred (cycles t)), set_mutex false s)
  end.

(** A step of the system: some thread executes its next statement. *)
Inductive sys_step : State * list Thread -> State * list Thread -> Prop :=
| sys_step_thread s ts i t t' s' :
    ts !! i = Some t ->
    thread_step t s = Some (t', s') ->
    sys_step (s, ts) (s', <[i := t']> ts).

(** [N] threads, each about to perform [M] cycles, on the pool [s0]. *)
Definition sys_init (s0 : State) (N M : nat) : State * list Thread :=
  (s0, replicate N (mkThread Outside M)).

(** The addresses held by the threads. *)
Definition held_set (ts : list Thread) : gset Z :=
  list_to_set (omap (fun t => held (loc t)) ts).

(** A thread's statements run without interruption. *)
Fixpoint run_thread (n : nat) (t : Thread) (s : State) : option (Thread * State) :=
  match n with
  | O => Some (t, s)
  | S n' =>
      match thread_step t s with
      | Some (t', s') => run_thread n' t' s'
      | None => None
      end
  end.

(** How the shared state [s] relates to the state [sq] in which the mutex
    was acquired, for a thread that is now at [l]. *)
Definition crit_rel (l : Loc) (sq s : State) : Prop :=
  match l with
  | AllocTest => s = set_mutex true sq
  | AllocThrow => s = set_mutex true sq /\ headHeader (self sq) = NULL
  | AllocPop fb =>
      s = set_mutex true sq /\ fb = headHeader (self sq) /\ fb <> NULL
  | AllocMark fb =>
      s = set_headHeader (Mem.load_ptr (mem sq) fb) (set_mutex true sq) /\
      fb = headHeader (self sq) /\ fb <> NULL
  | AllocReturn fb =>
      s = set_mem (Mem.store_ptr (mem sq) fb (blockInUseFlag (self sq)))
            (set_headHeader (Mem.load_ptr (mem sq) fb) (set_mutex true sq)) /\
      fb = headHeader (self sq) /\ fb <> NULL
  | DeallocTest x => s = set_mutex true sq
  | DeallocThrow x => s = set_mutex true sq /\ isBlockInUse sq x = false
  | DeallocLink x h =>
      s = set_mutex true sq /\ isBlockInUse sq x = true /\
      h = wrap (x - headerSize (self sq))
  | DeallocHead x h =>
      s = set_mem (Mem.store_ptr (mem sq) h (headHeader (self sq)))
            (set_mutex true sq) /\
      isBlockInUse sq x = true /\ h = wrap (x - headerSize (self sq))
  | DeallocReturn x =>
      s = set_headHeader (wrap (x - headerSize (self sq)))
            (set_mem (Mem.store_ptr (mem sq) (wrap (x - headerSize (self sq)))
                        (headHeader (self sq)))
               (set_mutex true sq)) /\
      isBlockInUse sq x = true
  | Outside | AllocEnter | Holding _ | DeallocEnter _ => False
  end.

(** No address is held by two threads. *)
Definition distinct_holders (ts : list Thread) : Prop :=
  forall i j ti tj x,
    ts !! i = Some ti -> ts !! j = Some tj ->
    held (loc ti) = Some x -> held (loc tj) = Some x -> i = j.

(** The invariant of the interleaved executions over the pool [s0]: the
    shared state is a state [sq] of the sequential life of the pool, in
    which the addresses handed out are those the threads hold, advanced by
    the statements executed so far by the one thread inside its guard. *)
Record sys_inv_at (s0 sq s : State) (ts : list Thread) : Prop := {
  si_reach : reachable s0 sq (held_set ts);
  si_distinct : distinct_holders ts;
  si_free : mutex (self s) = false ->
    s = sq /\
    forall i t, ts !! i = Some t -> in_critical (loc t) = false;
  si_held : mutex (self s) = true ->
    exists i t, ts !! i = Some t /\ in_critical (loc t) = true /\
                crit_rel (loc t) sq s /\
                forall j t', ts !! j = Some t' ->
                             in_critical (loc t') = true -> j = i
}.

(** The invariant, for some such state [sq]. *)
Definition sys_inv (s0 : State) (st : State * list Thread) : Prop :=
  exists sq, sys_inv_at s0 sq (fst st) (snd st).

(** The thread [i] executes its next statement. *)
Definition sys_run_step (i : nat) (st : State * list Thread)
    : option (State * list Thread) :=
  match snd st !! i with
  | Some t =>
      match thread_step t (fst st) with
      | Some (t', s') => Some (s', <[i := t']> (snd st))
      | None => None
      end
  | None => None
  end.

(** The threads execute one statement each, in the order of [sched]. *)
Fixpoint sys_run (sched : list nat) (st : State * list Thread)
    : option (State * list Thread) :=
  match sched with
  | [] => Some st
  | i :: sched' =>
      match sys_run_step i st with
      | Some st' => sys_run sched' st'
      | None => None
      end
  end.

(** ** Concrete pools *)

(** Four 16-byte blocks in a buffer obtained at address 4096. *)
Definition sample_fresh : State :=
  match BlockAllocator_new (fun _ => 4096) ∅ 16 4 NULL with
  | Return s => s
  | _ => mkState (member_init 0 0) ∅ []
  end.

(** That pool after two allocations and the release of the first block. *)
Definition sample_pool : State :=
  snd (deallocate 4104 (snd (allocate (snd (allocate sample_fresh))))).

(** The same request served from a caller's buffer at address 8192. *)
Definition sample_external : State :=
  match BlockAllocator_new (fun _ => 0) ∅ 16 4 8192 with
  | Return s => s
  | _ => mkState (member_init 0 0) ∅ []
  end.

(** Two threads on [sample_fresh]: the first runs a whole [allocate], the
    second starts one and acquires the mutex, and the first then enters
    [deallocate] and waits. *)
Definition sample_trace : State * list Thread :=
  match sys_run [0; 0; 0; 0; 0; 0; 1; 1; 0]%nat (sys_init sample_fresh 2 1) with
  | Some st => st
  | None => (sample_fresh, [])
  end.

(** ** Exceptions, memory cells and states *)

(** [IException::what] on each of the four exceptions: the message its
    constructor passes to [IException(std::string)]. *)
Definition what (e : Exception) : string :=
  match e with
  | OutOfSystemMemoryException =>
      "Can't acquire enough memory from the system!"
  | InvalidConstructorParametersException =>
      "Invalid constructor parameters passed!"
  | OutOfAllocatableMemoryException =>
      "Out of free memory at pool exception!"
  | InvalidBlockAddressException =>
      "Invalid block address exception!"
  end%string.

(** [p] is one of the bytes of the [next] field of some block. *)
Definition in_header_cell (b : BlockAllocator) (p : Z) : Prop :=
  exists h, is_header b h /\ h <= p < h + sizeof_ptr.

(** [p] is a byte of the buffer the pool was built over. *)
Definition in_buffer (b : BlockAllocator) (p : Z) : Prop :=
  startHeader b <= p < startHeader b + blockWithHeaderSize b * maxBlocks b.

(** The two states have the same fields, the same provider log, and the
    same byte at every address. *)
Definition same_state (s s' : State) : Prop :=
  self s = self s' /\ sys s = sys s' /\
  forall p, Mem.read_byte (mem s) p = Mem.read_byte (mem s') p.

(** A thread has run all its cycles. *)
Definition finished (t : Thread) : Prop := loc t = Outside /\ cycles t = O.

(** The user's stores [*(char* )p = v] for the pairs [(p, v)] of a list, the
    last of the list first. *)
Definition write_bytes (ws : list (Z * Z)) (m : gmap Z Z) : gmap Z Z :=
  foldr (fun w m' => Mem.write_byte m' (fst w) (snd w)) m ws.

(** The state after these stores. *)
Definition poke (ws : list (Z * Z)) (s : State) : State :=
  set_mem (write_bytes ws (mem s)) s.

(** One thread on [sample_fresh] that has run its only cycle to the end. *)
Definition sample_done : State * list Thread :=
  match sys_run (replicate 12 0%nat) (sys_init sample_fresh 1 1) with
  | Some st => st
  | None => (sample_fresh, [])
  end.

(** * Proofs *)

(** ** Word arithmetic *)

Lemma ADDR_MOD_eq : ADDR_MOD = 18446744073709551616.
Proof. reflexivity. Qed.

Lemma wrap_small (z : Z) : 0 <= z < ADDR_MOD -> wrap z = z.
Proof. intros H. unfold wrap. apply Z.mod_small. exact H. Qed.

Lemma wrap_below (z : Z) : - ADDR_MOD <= z < 0 -> wrap z = z + ADDR_MOD.
Proof.
  intros H. unfold wrap.
  symmetry. apply (Z.mod_unique_pos z ADDR_MOD (-1)); lia.
Qed.

(** ** Memory: loads see the last store, and only nearby stores *)

Module MemFacts.
Import Mem.

Lemma read_byte_range m a : 0 <= read_byte m a < 256.
Proof. unfold read_byte. apply Z.mod_pos_bound. lia. Qed.

Lemma read_write_byte_same m a v : read_byte (write_byte m a v) a = v `mod` 256.
Proof.
  unfold read_byte, write_byte.
  rewrite lookup_total_insert_eq. apply Z.mod_mod. lia.
Qed.

Lemma read_write_byte_other m a b v :
  a <> b -> read_byte (write_byte m a v) b = read_byte m b.
Proof.
  intros Hne. unfold read_byte, write_byte.
  rewrite lookup_total_insert_ne; [reflexivity | exact Hne].
Qed.

Lemma read_byte_store_le_out n : forall m a v b,
  b < a \/ a + Z.of_nat n <= b ->
  read_byte (store_le n m a v) b = read_byte m b.
Proof.
  induction n as [|n IH]; intros m a v b Hout; simpl; [reflexivity|].
  rewrite IH by lia. apply read_write_byte_other. lia.
Qed.

Lemma load_le_range n : forall m a, 0 <= load_le n m a < 256 ^ Z.of_nat n.
Proof.
  induction n as [|n IH]; intros m a.
  - simpl. lia.
  - change (load_le (S n) m a) with (read_byte m a + 256 * load_le n m (a + 1)).
    rewrite Nat2Z.inj_succ, Z.pow_succ_r by lia.
    pose proof (read_byte_range m a). pose proof (IH m (a + 1)). lia.
Qed.

Lemma load_store_le_same n : forall m a v,
  0 <= v < 256 ^ Z.of_nat n -> load_le n (store_le n m a v) a = v.
Proof.
  induction n as [|n IH]; intros m a v Hv.
  - simpl in *. lia.
  - rewrite Nat2Z.inj_succ, Z.pow_succ_r in Hv by lia.
    change (load_le (S n) (store_le (S n) m a v) a)
      with (read_byte (store_le n (write_byte m a v) (a + 1) (v / 256)) a
            + 256 * load_le n (store_le n (write_byte m a v) (a + 1) (v / 256))
                      (a + 1)).
    rewrite read_byte_store_le_out by lia.
    rewrite read_write_byte_same.
    rewrite IH.
    + pose proof (Z.div_mod v 256). lia.
    + split; [apply Z.div_pos; lia | apply Z.div_lt_upper_bound; lia].
Qed.

Lemma load_store_le_disjoint k : forall n m a v b,
  b + Z.of_nat k <= a \/ a + Z.of_nat n <= b ->
  load_le k (store_le n m a v) b = load_le k m b.
Proof.
  induction k as [|k IH]; intros n m a v b Hd; [reflexivity|].
  change (load_le (S k) ?mm b) with (read_byte mm b + 256 * load_le k mm (b + 1)).
  rewrite read_byte_store_le_out by lia.
  rewrite IH by lia. reflexivity.
Qed.

Lemma load_store_ptr_same m a v :
  0 <= v < ADDR_MOD -> load_ptr (store_ptr m a v) a = v.
Proof. intros Hv. apply (load_store_le_same 8). exact Hv. Qed.

(** Two pointer objects at least [sizeof_ptr] bytes apart do not overlap. *)
Lemma load_store_ptr_apart m a b v :
  sizeof_ptr <= Z.abs (a - b) -> load_ptr (store_ptr m a v) b = load_ptr m b.
Proof.
  unfold sizeof_ptr. intros Hd. apply (load_store_le_disjoint 8 8).
  change (Z.of_nat 8) with 8. lia.
Qed.

End MemFacts.

(** ** Layout of the pool *)

Section Layout.
Variable b : BlockAllocator.
Hypothesis Hlay : layout_ok b.

Lemma stride_ge : sizeof_ptr + 1 <= blockWithHeaderSize b.
Proof. destruct Hlay. lia. Qed.

Lemma header_bounds a :
  is_header b a ->
  startHeader b <= a <= endHeader b /\
  a + blockWithHeaderSize b <= ADDR_MOD.
Proof.
  intros (k & Hk & ->). unfold header_at, nth_header.
  pose proof stride_ge as Hs. unfold sizeof_ptr in Hs.
  destruct Hlay as [_ _ _ _ _ He Hfit _]. rewrite He.
  assert (0 <= k * blockWithHeaderSize b) by (apply Z.mul_nonneg_nonneg; lia).
  assert (0 <= (maxBlocks b - 1 - k) * blockWithHeaderSize b)
    by (apply Z.mul_nonneg_nonneg; lia).
  lia.
Qed.

Lemma header_word a :
  is_header b a -> 1 < a /\ a + sizeof_ptr < ADDR_MOD.
Proof.
  intros Ha. destruct (header_bounds a Ha) as [[H1 _] H2].
  pose proof stride_ge. destruct Hlay. unfold sizeof_ptr in *. lia.
Qed.

(** Header objects of different blocks do not overlap. *)
Lemma headers_apart a1 a2 :
  is_header b a1 -> is_header b a2 -> a1 <> a2 ->
  sizeof_ptr <= Z.abs (a1 - a2).
Proof.
  intros (k1 & Hk1 & ->) (k2 & Hk2 & ->) Hne. unfold header_at, nth_header in *.
  pose proof stride_ge as Hs. unfold sizeof_ptr in *.
  destruct (Z.lt_total k1 k2) as [Hlt | [-> | Hlt]]; [| congruence |].
  - assert (0 <= (k2 - k1 - 1) * blockWithHeaderSize b)
      by (apply Z.mul_nonneg_nonneg; lia).
    lia.
  - assert (0 <= (k1 - k2 - 1) * blockWithHeaderSize b)
      by (apply Z.mul_nonneg_nonneg; lia).
    lia.
Qed.

(** The range-and-stride test characterises header addresses. *)
Lemma is_header_test a :
  is_header b a <->
  startHeader b <= a <= endHeader b /\
  (a - startHeader b) `mod` blockWithHeaderSize b = 0.
Proof.
  pose proof stride_ge as Hs. unfold sizeof_ptr in Hs.
  split.
  - intros Ha. split; [apply header_bounds; exact Ha|].
    destruct Ha as (k & Hk & ->). unfold header_at, nth_header.
    replace (startHeader b + k * blockWithHeaderSize b - startHeader b)
      with (k * blockWithHeaderSize b) by lia.
    apply Z.mod_mul. lia.
  - intros [[Hlo Hhi] Hmod].
    exists ((a - startHeader b) / blockWithHeaderSize b).
    pose proof (Z.div_mod (a - startHeader b) (blockWithHeaderSize b)) as Hdm.
    rewrite Hmod in Hdm.
    set (q := (a - startHeader b) / blockWithHeaderSize b) in *.
    assert (Hq : a - startHeader b = blockWithHeaderSize b * q) by lia.
    destruct Hlay as [_ _ _ _ _ He _ _]. rewrite He in Hhi.
    unfold header_at, nth_header. split; [|lia].
    split.
    + apply Z.div_pos; lia.
    + assert (blockWithHeaderSize b * q
              <= blockWithHeaderSize b * (maxBlocks b - 1)) by lia.
      assert (q <= maxBlocks b - 1)
        by (apply (Z.mul_le_mono_pos_l _ _ (blockWithHeaderSize b)); lia).
      lia.
Qed.

End Layout.

(** ** Address validation *)

Section AddressCheck.
Variable s : State.
Hypothesis Hlay : layout_ok (self s).

(** For a structurally valid address the derived header address does not
    wrap. *)
Lemma derived_header x :
  0 <= x < ADDR_MOD -> isBlockAddress s x = true ->
  wrap (x - headerSize (self s)) = x - sizeof_ptr.
Proof.
  intros Hx. unfold isBlockAddress.
  pose proof (stride_ge _ Hlay) as Hs.
  destruct Hlay as [_ Hh _ Hb Hst He Hfit _]. rewrite Hh.
  unfold sizeof_ptr, NULL in *.
  destruct (Z.eqb_spec x 0) as [->|Hnz]; [discriminate|].
  destruct (Z_lt_le_dec x 8) as [Hlt|Hge].
  - rewrite (wrap_below (x - 8)) by lia.
    assert (0 <= blockWithHeaderSize (self s) * (maxBlocks (self s) - 1))
      by (apply Z.mul_nonneg_nonneg; lia).
    destruct (Z.ltb_spec (endHeader (self s)) (x - 8 + ADDR_MOD)); [discriminate|].
    lia.
  - intros _. apply wrap_small. lia.
Qed.

Lemma isBlockAddress_iff x :
  0 <= x < ADDR_MOD ->
  isBlockAddress s x = true <-> is_header (self s) (x - sizeof_ptr).
Proof.
  intros Hx. split.
  - intros Ht. pose proof (derived_header x Hx Ht) as Hw.
    apply (is_header_test _ Hlay).
    unfold isBlockAddress in Ht. rewrite Hw in Ht.
    destruct (Z.eqb_spec x NULL); [discriminate|].
    destruct (Z.ltb_spec (endHeader (self s)) (x - sizeof_ptr)); [discriminate|].
    destruct (Z.ltb_spec (x - sizeof_ptr) (startHeader (self s))); [discriminate|].
    pose proof (lay_start _ Hlay).
    simpl in Ht. rewrite wrap_small in Ht by (unfold sizeof_ptr in *; lia).
    destruct (Z.eqb_spec ((x - sizeof_ptr - startHeader (self s))
                            `mod` blockWithHeaderSize (self s)) 0);
      [|discriminate].
    split; [lia | assumption].
  - intros Hh.
    pose proof (header_word _ Hlay _ Hh) as [Hgt Hlt].
    pose proof (header_bounds _ Hlay _ Hh) as [[Hlo Hhi] _].
    apply (is_header_test _ Hlay) in Hh as [_ Hmod].
    unfold isBlockAddress.
    rewrite (lay_header _ Hlay).
    rewrite (wrap_small (x - sizeof_ptr)) by (unfold sizeof_ptr in *; lia).
    destruct (Z.eqb_spec x NULL) as [->|_];
      [unfold NULL, sizeof_ptr in *; lia|].
    destruct (Z.ltb_spec (endHeader (self s)) (x - sizeof_ptr)); [lia|].
    destruct (Z.ltb_spec (x - sizeof_ptr) (startHeader (self s))); [lia|].
    pose proof (lay_start _ Hlay).
    simpl. rewrite wrap_small by (unfold sizeof_ptr in *; lia).
    rewrite Hmod. reflexivity.
Qed.

End AddressCheck.

(** ** The free list *)

Lemma chain_unique m : forall l1 l2 h, chain m h l1 -> chain m h l2 -> l1 = l2.
Proof.
  induction l1 as [|a l1 IH]; intros [|a2 l2] h H1 H2; simpl in *.
  - reflexivity.
  - destruct H2 as (-> & Hnz & _). congruence.
  - destruct H1 as (-> & Hnz & _). congruence.
  - destruct H1 as (-> & _ & H1), H2 as (<- & _ & H2).
    f_equal. eapply IH; eassumption.
Qed.

(** A store outside the cells of the chain leaves the chain as it was. *)
Lemma chain_frame m c v : forall l h,
  chain m h l ->
  (forall a, a ∈ l -> sizeof_ptr <= Z.abs (c - a)) ->
  chain (Mem.store_ptr m c v) h l.
Proof.
  induction l as [|a l IH]; intros h Hc Hfar; simpl in *; [exact Hc|].
  destruct Hc as (-> & Hnz & Hc). split; [reflexivity|]. split; [exact Hnz|].
  rewrite MemFacts.load_store_ptr_apart by (apply Hfar; left).
  apply IH; [exact Hc|]. intros a' Ha'. apply Hfar. right. exact Ha'.
Qed.

Lemma unlock_lock (s : State) :
  mutex (self s) = false -> set_mutex false (set_mutex true s) = s.
Proof.
  destruct s as [[] m sy]. simpl. intros ->. reflexivity.
Qed.

Arguments ADDR_MOD : simpl never.
Arguments wrap : simpl never.
Arguments Mem.load_ptr : simpl never.
Arguments Mem.store_ptr : simpl never.

Lemma same_layout_refl b : same_layout b b.
Proof. repeat split. Qed.

Lemma same_layout_trans b1 b2 b3 :
  same_layout b1 b2 -> same_layout b2 b3 -> same_layout b1 b3.
Proof. unfold same_layout. intuition congruence. Qed.

Lemma same_layout_header b b' a :
  same_layout b b' -> is_header b a -> is_header b' a.
Proof.
  intros (H1 & H2 & H3 & H4 & H5 & _ & H7 & H8) (k & Hk & ->).
  exists k. unfold header_at, nth_header. rewrite H3, H4, H8. auto.
Qed.

(** ** What [allocate] and [deallocate] do to a pool in a valid state *)

Section Operations.
Variables (s : State) (fl : list Z).
Hypothesis Hinv : pool_inv s fl.

(** An empty free list: the call throws and the state is as before. *)
Lemma allocate_empty :
  fl = [] -> allocate s = (Throw OutOfAllocatableMemoryException, s).
Proof.
  intros ->. destruct Hinv as [_ Hmx Hch _ _ _]. simpl in Hch.
  unfold allocate, lock_guard. rewrite Hmx. simpl. rewrite Hch. simpl.
  f_equal. apply unlock_lock. exact Hmx.
Qed.

(** A non-empty free list: the call pops its first block. *)
Lemma allocate_cons a fl' :
  fl = a :: fl' ->
  exists s', allocate s = (Return (a + sizeof_ptr), s') /\
             pool_inv s' fl' /\
             same_layout (self s) (self s') /\ sys s' = sys s.
Proof.
  intros ->. destruct Hinv as [Hlay Hmx Hch Hnd Hfree Hused].
  simpl in Hch. destruct Hch as (Hhead & Hnz & Hch).
  assert (Ha : is_header (self s) a) by (apply Hfree; left).
  pose proof (header_word _ Hlay _ Ha) as [Ha1 Ha2].
  apply NoDup_cons in Hnd as [Hnotin Hnd].
  unfold allocate, lock_guard. rewrite Hmx. simpl. rewrite Hhead.
  destruct (Z.eqb_spec a NULL) as [?|_]; [contradiction|].
  eexists. split.
  { f_equal. f_equal. unfold getHeaderSize. apply wrap_small.
    unfold sizeof_ptr in *. lia. }
  split; [|split; [repeat split | reflexivity]].
  constructor; simpl.
  - destruct Hlay. constructor; assumption.
  - reflexivity.
  - apply chain_frame; [exact Hch|].
    intros a' Ha'. apply (headers_apart _ Hlay); auto.
    + apply Hfree. right. exact Ha'.
    + intros ->. contradiction.
  - exact Hnd.
  - intros a' Ha'. destruct (Hfree a') as (k & Hk & ->); [right; exact Ha'|].
    exists k. auto.
  - intros x Hx Hxn.
    assert (Hx' : is_header (self s) x) by (destruct Hx as (k & ? & ->); exists k; auto).
    destruct (decide (x = a)) as [->|Hne].
    + apply MemFacts.load_store_ptr_same. rewrite (lay_flag _ Hlay).
      rewrite ADDR_MOD_eq. lia.
    + rewrite MemFacts.load_store_ptr_apart
        by (apply (headers_apart _ Hlay); auto).
      apply Hused; [exact Hx'|]. intros Hin. apply elem_of_cons in Hin as [?|?]; auto.
Qed.

(** [isBlockInUse] answers [true] exactly on the blocks that are handed
    out. *)
Lemma isBlockInUse_iff x :
  0 <= x < ADDR_MOD ->
  isBlockInUse s x = true <->
  is_header (self s) (x - sizeof_ptr) /\ (x - sizeof_ptr) ∉ fl.
Proof.
  intros Hx. destruct Hinv as [Hlay Hmx Hch Hnd Hfree Hused].
  unfold isBlockInUse.
  destruct (isBlockAddress s x) eqn:Hba; simpl.
  - rewrite (derived_header _ Hlay x Hx Hba).
    apply (isBlockAddress_iff _ Hlay x Hx) in Hba.
    destruct (Z.eqb_spec (Mem.load_ptr (mem s) (x - sizeof_ptr))
                (blockInUseFlag (self s))) as [Heq|Hne].
    + split; [intros _|reflexivity]. split; [exact Hba|].
      intros Hin.
      (* a free cell holds the next free header or NULL, never the flag *)
      clear Hused. revert Hin Heq. generalize (x - sizeof_ptr). intros a Hin Heq.
      rewrite (lay_flag _ Hlay) in Heq.
      assert (Hnext : forall l h, chain (mem s) h l -> a ∈ l ->
                (forall y, y ∈ l -> is_header (self s) y) ->
                Mem.load_ptr (mem s) a <> 1).
      { induction l as [|y l IH]; intros h Hc Hal Hhd; [inversion Hal|].
        simpl in Hc. destruct Hc as (_ & _ & Hc).
        apply elem_of_cons in Hal as [->|Hal].
        - destruct l as [|z l]; simpl in Hc.
          + rewrite Hc. unfold NULL. lia.
          + destruct Hc as (-> & _ & _).
            assert (Hz : is_header (self s) z) by (apply Hhd; right; left).
            apply (header_word _ Hlay) in Hz. lia.
        - eapply IH; eauto. intros y' Hy'. apply Hhd. right. exact Hy'. }
      exact (Hnext _ _ Hch Hin Hfree Heq).
    + split; [discriminate|]. intros [_ Hnin]. exfalso. apply Hne.
      apply Hused; assumption.
  - split; [discriminate|]. intros [Hh _].
    apply (isBlockAddress_iff _ Hlay x Hx) in Hh. congruence.
Qed.

End Operations.

Lemma isBlockInUse_set_mutex l s x :
  isBlockInUse (set_mutex l s) x = isBlockInUse s x.
Proof. reflexivity. Qed.

Section Deallocation.
Variables (s : State) (fl : list Z).
Hypothesis Hinv : pool_inv s fl.

Lemma head_range : 0 <= headHeader (self s) < ADDR_MOD.
Proof.
  destruct Hinv as [Hlay _ Hch _ Hfree _].
  destruct fl as [|a l]; simpl in Hch.
  - rewrite Hch. unfold NULL. rewrite ADDR_MOD_eq. lia.
  - destruct Hch as (-> & _ & _).
    assert (Ha : is_header (self s) a) by (apply Hfree; left).
    apply (header_word _ Hlay) in Ha. unfold sizeof_ptr in *. lia.
Qed.

(** The address is refused: the call throws and the state is as before. *)
Lemma deallocate_rejected x :
  isBlockInUse s x = false ->
  deallocate x s = (Throw InvalidBlockAddressException, s).
Proof.
  intros Hno. unfold deallocate, lock_guard.
  rewrite (inv_unlocked _ _ Hinv), isBlockInUse_set_mutex, Hno. simpl.
  f_equal. apply unlock_lock. exact (inv_unlocked _ _ Hinv).
Qed.

(** The address is a block in use: the call pushes it on the free list. *)
Lemma deallocate_in_use x :
  0 <= x < ADDR_MOD -> isBlockInUse s x = true ->
  exists s', deallocate x s = (Return tt, s') /\
             pool_inv s' ((x - sizeof_ptr) :: fl) /\
             headHeader (self s') = x - sizeof_ptr /\
             same_layout (self s) (self s') /\ sys s' = sys s.
Proof.
  intros Hx Hyes. pose proof head_range as Hhd.
  pose proof (proj1 (isBlockInUse_iff _ _ Hinv x Hx) Hyes) as [Hh Hnin].
  destruct Hinv as [Hlay Hmx Hch Hnd Hfree Hused].
  assert (Hw : wrap (x - headerSize (self s)) = x - sizeof_ptr).
  { apply (derived_header _ Hlay x Hx).
    apply (isBlockAddress_iff _ Hlay x Hx). exact Hh. }
  unfold deallocate, lock_guard.
  rewrite Hmx, isBlockInUse_set_mutex, Hyes. simpl. rewrite Hw.
  eexists. split; [reflexivity|].
  split; [|split; [reflexivity | split; [repeat split | reflexivity]]].
  constructor; simpl.
  - destruct Hlay. constructor; assumption.
  - reflexivity.
  - split; [reflexivity|]. split.
    + apply (header_word _ Hlay) in Hh. unfold NULL. lia.
    + rewrite MemFacts.load_store_ptr_same by exact Hhd.
      apply chain_frame; [exact Hch|].
      intros a Ha. apply (headers_apart _ Hlay); auto.
      intros Heq. apply Hnin. rewrite Heq. exact Ha.
  - apply NoDup_cons. split; assumption.
  - intros a Ha.
    assert (Ha' : is_header (self s) a).
    { apply elem_of_cons in Ha as [->|Ha]; [exact Hh | apply Hfree; exact Ha]. }
    destruct Ha' as (k & Hk & ->). exists k. auto.
  - intros a Ha Hnot.
    assert (Ha' : is_header (self s) a) by (destruct Ha as (k & ? & ->); exists k; auto).
    assert (a <> x - sizeof_ptr) by (intros ->; apply Hnot; left).
    rewrite MemFacts.load_store_ptr_apart
      by (apply (headers_apart _ Hlay); auto).
    apply Hused; [exact Ha'|]. intros Hin. apply Hnot. right. exact Hin.
Qed.

End Deallocation.

(** ** The size check of the constructor *)

Lemma SIZE_MAX_eq : SIZE_MAX = 18446744073709551615.
Proof. reflexivity. Qed.

(** The division test decides whether [(size + header) * blocks] fits in a
    [size_t], and no intermediate value of the test leaves the range of
    [size_t]: the subtraction is only reached when it cannot wrap. *)
Lemma isSizeCorrect_iff b size blocks :
  headerSize b = sizeof_ptr ->
  0 <= size <= SIZE_MAX -> 1 <= blocks <= SIZE_MAX ->
  isSizeCorrect b size blocks = true <->
  (size + sizeof_ptr) * blocks <= SIZE_MAX.
Proof.
  intros Hh Hs Hb. unfold isSizeCorrect, getHeaderSize. rewrite Hh.
  pose proof (Z.div_mod SIZE_MAX blocks) as Hdm.
  pose proof (Z.mod_pos_bound SIZE_MAX blocks) as Hmb.
  assert (Hq0 : 0 <= SIZE_MAX / blocks)
    by (apply Z.div_pos; rewrite ?SIZE_MAX_eq; lia).
  assert (Hq1 : SIZE_MAX / blocks <= SIZE_MAX)
    by (apply Z.div_le_upper_bound; rewrite ?SIZE_MAX_eq in *; nia).
  set (q := SIZE_MAX / blocks) in *.
  set (r := SIZE_MAX `mod` blocks) in *.
  unfold sizeof_ptr in *.
  destruct (Z.ltb_spec q 8) as [Hlt|Hge].
  - split; [discriminate|]. intros Hfit. exfalso.
    assert ((q + 1) * blocks <= (size + 8) * blocks)
      by (apply Z.mul_le_mono_nonneg_r; lia).
    lia.
  - rewrite wrap_small by (unfold SIZE_MAX in *; lia).
    rewrite Z.leb_le. split.
    + intros Hle.
      assert ((size + 8) * blocks <= q * blocks)
        by (apply Z.mul_le_mono_nonneg_r; lia).
      lia.
    + intros Hfit.
      assert (~ q + 1 <= size + 8); [|lia].
      intros Hgt.
      assert ((q + 1) * blocks <= (size + 8) * blocks)
        by (apply Z.mul_le_mono_nonneg_r; lia).
      lia.
Qed.

(** ** Construction of the free list *)

Section BuildList.
Variables (start stride blocks : Z).
Hypothesis Hstride : sizeof_ptr + 1 <= stride.
Hypothesis Hblocks : 1 <= blocks.
Hypothesis Hstart : 0 <= start.
Hypothesis Hfit : start + stride * blocks <= ADDR_MOD.

Lemma nth_header_lt_last k :
  0 <= k <= blocks - 1 ->
  (nth_header start stride k <? last_header start stride blocks)
  = (k <? blocks - 1).
Proof.
  intros Hk. unfold nth_header, last_header, sizeof_ptr in *.
  destruct (Z.ltb_spec k (blocks - 1)) as [Hlt|Hge].
  - apply Z.ltb_lt.
    assert (0 <= (blocks - 1 - k - 1) * stride)
      by (apply Z.mul_nonneg_nonneg; lia).
    lia.
  - apply Z.ltb_ge. replace k with (blocks - 1) by lia. lia.
Qed.

Lemma nth_header_next k :
  0 <= k < blocks - 1 ->
  wrap (nth_header start stride k + stride) = nth_header start stride (k + 1).
Proof.
  intros Hk. unfold nth_header, sizeof_ptr in *.
  assert (0 <= k * stride) by (apply Z.mul_nonneg_nonneg; lia).
  assert (0 <= (blocks - 1 - k - 1) * stride)
    by (apply Z.mul_nonneg_nonneg; lia).
  rewrite wrap_small by lia. lia.
Qed.

(** Started at block [k] with enough fuel, the loop ends, has linked every
    block from [k] up to the last one to its successor, and has written
    neither below block [k] nor at or above the last header. *)
Lemma buildBlocksList_loop_spec : forall fuel k m,
  0 <= k <= blocks - 1 ->
  (Z.to_nat (blocks - 1 - k) <= fuel)%nat ->
  exists m',
    buildBlocksList_loop fuel stride (last_header start stride blocks)
      (nth_header start stride k) m = Some m' /\
    (forall j, k <= j < blocks - 1 ->
               Mem.load_ptr m' (nth_header start stride j)
               = nth_header start stride (j + 1)) /\
    (forall a, a + sizeof_ptr <= nth_header start stride k \/
               last_header start stride blocks <= a ->
               Mem.load_ptr m' a = Mem.load_ptr m a).
Proof.
  induction fuel as [|fuel IH]; intros k m Hk Hfuel.
  - assert (k = blocks - 1) by lia. subst k.
    exists m. simpl. rewrite nth_header_lt_last by lia. rewrite Z.ltb_irrefl.
    split; [reflexivity|]. split; [intros; lia | reflexivity].
  - simpl. rewrite nth_header_lt_last by lia.
    destruct (Z.ltb_spec k (blocks - 1)) as [Hlt|Hge].
    + rewrite nth_header_next by lia.
      destruct (IH (k + 1)
                  (Mem.store_ptr m (nth_header start stride k)
                     (nth_header start stride (k + 1))))
        as (m' & Hrun & Hlinks & Hframe); [lia | lia |].
      assert (Hk0 : 0 <= k * stride)
        by (apply Z.mul_nonneg_nonneg; unfold sizeof_ptr in *; lia).
      assert (Hk1 : 0 <= (blocks - 1 - k - 1) * stride)
        by (apply Z.mul_nonneg_nonneg; unfold sizeof_ptr in *; lia).
      exists m'. split; [exact Hrun|].
      unfold nth_header, last_header, sizeof_ptr in *. split.
      * intros j Hj. destruct (decide (j = k)) as [->|Hne].
        -- rewrite Hframe by lia.
           apply MemFacts.load_store_ptr_same. lia.
        -- apply Hlinks. lia.
      * intros a Ha. rewrite Hframe by lia.
        apply MemFacts.load_store_ptr_apart. unfold sizeof_ptr. lia.
    + exists m. split; [reflexivity|]. split; [intros; lia | reflexivity].
Qed.

(** Once the last header holds [NULL], the blocks from [k] on form a
    chain in ascending address order. *)
Lemma linked_chain m :
  1 <= start ->
  (forall j, 0 <= j < blocks - 1 ->
             Mem.load_ptr m (nth_header start stride j)
             = nth_header start stride (j + 1)) ->
  Mem.load_ptr m (last_header start stride blocks) = NULL ->
  forall n k, 0 <= k -> k + Z.of_nat n = blocks ->
  chain m (if n is O then NULL else nth_header start stride k)
    (nth_header start stride <$> seqZ k (Z.of_nat n)).
Proof.
  intros Hs1 Hlinks Hend. induction n as [|n IH]; intros k Hk Hn.
  - reflexivity.
  - rewrite seqZ_cons by lia. simpl.
    split; [reflexivity|]. split.
    + unfold nth_header, NULL.
      assert (0 <= k * stride)
        by (apply Z.mul_nonneg_nonneg; unfold sizeof_ptr in *; lia).
      lia.
    + replace (Z.pred (Z.of_nat (S n))) with (Z.of_nat n) by lia.
      destruct n as [|n'].
      * replace (nth_header start stride k)
          with (last_header start stride blocks)
          by (unfold nth_header, last_header; nia).
        rewrite Hend. reflexivity.
      * rewrite Hlinks by lia. replace (k + 1) with (Z.succ k) by lia.
        apply IH; lia.
Qed.

End BuildList.

Section Construction.
Variables (malloc : Z -> Z) (m0 : gmap Z Z) (size blocks memoryPool : Z).
Hypothesis Hacc : accepted size blocks.

Lemma accepted_wraps :
  wrap (size + sizeof_ptr) = size + sizeof_ptr /\
  wrap ((size + sizeof_ptr) * blocks) = (size + sizeof_ptr) * blocks /\
  wrap ((size + sizeof_ptr) * wrap (blocks - 1))
  = (size + sizeof_ptr) * (blocks - 1).
Proof.
  destruct Hacc as (Hs & Hb & Hfit).
  unfold sizeof_ptr in *. rewrite SIZE_MAX_eq in Hfit.
  assert (H1 : size + 8 <= (size + 8) * blocks) by nia.
  assert (H2 : blocks <= (size + 8) * blocks) by nia.
  assert (H3 : 0 <= (size + 8) * (blocks - 1) <= (size + 8) * blocks) by nia.
  rewrite (wrap_small (blocks - 1)) by (rewrite ADDR_MOD_eq; lia).
  rewrite !wrap_small by (rewrite ADDR_MOD_eq; lia).
  auto.
Qed.

Lemma accepted_passes_checks :
  (size =? 0) || (blocks =? 0) = false /\
  isSizeCorrect (member_init size blocks) size blocks = true.
Proof.
  destruct Hacc as (Hs & Hb & Hfit). split.
  - apply orb_false_intro; apply Z.eqb_neq; lia.
  - apply isSizeCorrect_iff; [reflexivity | | | exact Hfit];
      unfold sizeof_ptr in *; nia.
Qed.

(** With an accepted request and a usable buffer the constructor returns a
    pool in which every block is free, linked in ascending address
    order. *)
Lemma BlockAllocator_new_ok :
  usable_buffer (buffer_of malloc size blocks memoryPool) size blocks ->
  exists s,
    BlockAllocator_new malloc m0 size blocks memoryPool = Return s /\
    pool_inv s (fresh_list (self s)) /\
    blockSize (self s) = size /\ maxBlocks (self s) = blocks /\
    startHeader (self s) = buffer_of malloc size blocks memoryPool /\
    blockWithHeaderSize (self s) = size + sizeof_ptr /\
    poolType (self s) = (if memoryPool =? NULL then Internal else External) /\
    sys s = (if memoryPool =? NULL
             then [SysMalloc ((size + sizeof_ptr) * blocks)
                     (buffer_of malloc size blocks memoryPool)]
             else []).
Proof.
  set (start := buffer_of malloc size blocks memoryPool).
  intros [Hst Hfit].
  destruct accepted_wraps as (Hw1 & Hw2 & Hw3).
  destruct accepted_passes_checks as [Hc1 Hc2].
  destruct Hacc as (Hs & Hb & Hmax).
  assert (Hstride : sizeof_ptr + 1 <= size + sizeof_ptr) by lia.
  assert (Hend : 0 <= (size + sizeof_ptr) * (blocks - 1)
                 <= (size + sizeof_ptr) * blocks)
    by (unfold sizeof_ptr; nia).
  assert (Hw4 : wrap (start + (size + sizeof_ptr) * (blocks - 1))
                = start + (size + sizeof_ptr) * (blocks - 1))
    by (apply wrap_small; unfold sizeof_ptr in *; lia).
  destruct (buildBlocksList_loop_spec start (size + sizeof_ptr) blocks
              Hstride Hb ltac:(lia) Hfit (Z.to_nat blocks) 0 m0
              ltac:(lia) ltac:(lia))
    as (m' & Hrun & Hlinks & _).
  unfold nth_header, last_header in Hrun, Hlinks.
  replace (start + 0 * (size + sizeof_ptr)) with start in Hrun by lia.
  set (mfin := Mem.store_ptr m'
                 (start + (size + sizeof_ptr) * (blocks - 1)) NULL).
  assert (Hlinks' : forall j, 0 <= j < blocks - 1 ->
            Mem.load_ptr mfin (start + j * (size + sizeof_ptr))
            = start + (j + 1) * (size + sizeof_ptr)).
  { intros j Hj. unfold mfin.
    rewrite MemFacts.load_store_ptr_apart; [apply Hlinks; exact Hj|].
    unfold sizeof_ptr in *.
    assert (0 <= (blocks - 1 - j - 1) * (size + 8))
      by (apply Z.mul_nonneg_nonneg; lia).
    lia. }
  assert (Hnull : Mem.load_ptr mfin
                    (start + (size + sizeof_ptr) * (blocks - 1)) = NULL).
  { unfold mfin. apply MemFacts.load_store_ptr_same.
    unfold NULL. rewrite ADDR_MOD_eq. lia. }
  pose proof (linked_chain start (size + sizeof_ptr) blocks Hstride mfin
                ltac:(lia) Hlinks' Hnull (Z.to_nat blocks) 0 ltac:(lia)
                ltac:(lia)) as Hchain.
  rewrite Z2Nat.id in Hchain by lia.
  change (nth_header start (size + sizeof_ptr) 0)
    with (start + 0 * (size + sizeof_ptr)) in Hchain.
  replace (match Z.to_nat blocks with
           | O => NULL
           | S _ => start + 0 * (size + sizeof_ptr)
           end) with start in Hchain
    by (destruct (Z.to_nat blocks) eqn:Hnb; lia).
  unfold BlockAllocator_new.
  cbn [blockSize maxBlocks headerSize member_init].
  rewrite Hc1, Hc2. cbn [negb].
  rewrite Hw1, Hw2, Hw3.
  assert (Hbuilt : forall ty log,
    buildBlocksList (Z.to_nat blocks)
      {| self := {| blockSize := size; headerSize := sizeof_ptr;
                    maxBlocks := blocks; startHeader := start;
                    endHeader := wrap (start + (size + sizeof_ptr) * (blocks - 1));
                    headHeader := start; mutex := false; poolType := ty;
                    blockInUseFlag := 1;
                    blockWithHeaderSize := size + sizeof_ptr |};
         mem := m0; sys := log |}
    = Some {| self := {| blockSize := size; headerSize := sizeof_ptr;
                    maxBlocks := blocks; startHeader := start;
                    endHeader := start + (size + sizeof_ptr) * (blocks - 1);
                    headHeader := start; mutex := false; poolType := ty;
                    blockInUseFlag := 1;
                    blockWithHeaderSize := size + sizeof_ptr |};
              mem := mfin; sys := log |}).
  { intros ty log. unfold buildBlocksList. cbn [self mem sys blockWithHeaderSize
      endHeader startHeader]. rewrite Hw4, Hrun. reflexivity. }
  assert (Hinv : forall ty log,
    pool_inv {| self := {| blockSize := size; headerSize := sizeof_ptr;
                    maxBlocks := blocks; startHeader := start;
                    endHeader := start + (size + sizeof_ptr) * (blocks - 1);
                    headHeader := start; mutex := false; poolType := ty;
                    blockInUseFlag := 1;
                    blockWithHeaderSize := size + sizeof_ptr |};
              mem := mfin; sys := log |}
      (fresh_list {| blockSize := size; headerSize := sizeof_ptr;
                    maxBlocks := blocks; startHeader := start;
                    endHeader := start + (size + sizeof_ptr) * (blocks - 1);
                    headHeader := start; mutex := false; poolType := ty;
                    blockInUseFlag := 1;
                    blockWithHeaderSize := size + sizeof_ptr |})).
  { intros ty log. constructor; cbn [self mem sys].
    - constructor; cbn; try reflexivity; try lia.
    - reflexivity.
    - exact Hchain.
    - unfold fresh_list. apply NoDup_fmap_2_strong; [|apply NoDup_seqZ].
      intros k1 k2 _ _. unfold header_at, nth_header. cbn. unfold sizeof_ptr in *. nia.
    - intros a Ha. unfold fresh_list in Ha.
      apply list_elem_of_fmap in Ha as (k & -> & Hk).
      apply elem_of_seqZ in Hk. exists k.
      split; [cbn [maxBlocks] in Hk |- *; lia | reflexivity].
    - intros a (k & Hk & ->) Hnot. exfalso. apply Hnot.
      unfold fresh_list. apply list_elem_of_fmap. exists k.
      split; [reflexivity|]. apply elem_of_seqZ.
      cbn [maxBlocks] in *. lia. }
  subst start. unfold buffer_of in *.
  destruct (memoryPool =? NULL).
  - destruct (Z.eqb_spec (malloc ((size + sizeof_ptr) * blocks)) NULL)
      as [Hz|_]; [unfold NULL in Hz; lia|].
    rewrite Hbuilt. eexists. split; [reflexivity|].
    split; [apply Hinv|]. cbn. repeat split.
  - rewrite Hbuilt. eexists. split; [reflexivity|].
    split; [apply Hinv|]. cbn. repeat split.
Qed.

End Construction.

(** ** Lifetimes of a pool *)

Lemma allocate_n_spec : forall n s fl,
  pool_inv s fl -> (n <= length fl)%nat ->
  exists s',
    allocate_n n s = (Return <$> ((fun a => a + sizeof_ptr) <$> take n fl), s') /\
    pool_inv s' (drop n fl) /\ same_layout (self s) (self s') /\ sys s' = sys s.
Proof.
  induction n as [|n IH]; intros s fl Hinv Hlen.
  - exists s. rewrite drop_0.
    split; [reflexivity|]. split; [exact Hinv|].
    split; [apply same_layout_refl | reflexivity].
  - destruct fl as [|a fl]; [simpl in Hlen; lia|].
    destruct (allocate_cons s (a :: fl) Hinv a fl eq_refl)
      as (s1 & Hrun & Hinv1 & Hlay1 & Hsys1).
    destruct (IH s1 fl Hinv1 ltac:(simpl in Hlen; lia))
      as (s2 & Hrun2 & Hinv2 & Hlay2 & Hsys2).
    exists s2. simpl. rewrite Hrun, Hrun2.
    split; [reflexivity|]. split; [exact Hinv2|].
    split; [eapply same_layout_trans; eassumption | congruence].
Qed.

Lemma fresh_list_length b : 0 <= maxBlocks b ->
  length (fresh_list b) = Z.to_nat (maxBlocks b).
Proof. intros _. unfold fresh_list. rewrite length_fmap. apply length_seqZ. Qed.

Section Reachable.
Variables (malloc : Z -> Z) (m0 : gmap Z Z) (size blocks memoryPool : Z).
Variable s0 : State.
Hypothesis Hcons : constructed malloc m0 size blocks memoryPool s0.

(** A request in range that the constructor did not refuse was accepted
    by the size check. *)
Lemma constructed_accepted : accepted size blocks.
Proof.
  destruct Hcons as [Hs Hb _ Hret].
  unfold BlockAllocator_new in Hret.
  cbn [blockSize maxBlocks member_init] in Hret.
  destruct (Z.eqb_spec size 0) as [|Hs0]; [discriminate|].
  destruct (Z.eqb_spec blocks 0) as [|Hb0]; [discriminate|].
  cbn [orb] in Hret.
  destruct (isSizeCorrect _ size blocks) eqn:Hok; [|discriminate].
  apply isSizeCorrect_iff in Hok; [|reflexivity|lia|lia].
  unfold accepted. lia.
Qed.

Lemma constructed_inv :
  pool_inv s0 (fresh_list (self s0)) /\
  blockSize (self s0) = size /\ maxBlocks (self s0) = blocks /\
  startHeader (self s0) = buffer_of malloc size blocks memoryPool /\
  blockWithHeaderSize (self s0) = size + sizeof_ptr /\
  poolType (self s0) = (if memoryPool =? NULL then Internal else External) /\
  sys s0 = (if memoryPool =? NULL
            then [SysMalloc ((size + sizeof_ptr) * blocks)
                    (buffer_of malloc size blocks memoryPool)] else []).
Proof.
  destruct (BlockAllocator_new_ok malloc m0 size blocks memoryPool
              constructed_accepted (cons_buffer _ _ _ _ _ _ Hcons))
    as (s & Hret & H).
  rewrite (cons_return _ _ _ _ _ _ Hcons) in Hret.
  injection Hret as <-. exact H.
Qed.

(** The invariant of every reachable state. *)
Lemma reachable_inv s live :
  reachable s0 s live ->
  exists fl, pool_inv s fl /\ live_blocks s fl live /\
             same_layout (self s0) (self s) /\ sys s = sys s0.
Proof.
  induction 1 as [|s live r s' _ IH Hrun|s live x r s' _ IH Hx Hrun].
  - destruct constructed_inv as (Hinv & _).
    exists (fresh_list (self s0)). split; [exact Hinv|].
    split; [|split; [apply same_layout_refl | reflexivity]].
    intros x. split; [set_solver|]. intros [(k & Hk & Hx) Hnot].
    exfalso. apply Hnot. rewrite Hx. unfold fresh_list.
    apply list_elem_of_fmap. exists k. split; [reflexivity|].
    apply elem_of_seqZ. lia.
  - destruct IH as (fl & Hinv & Hlive & Hlay & Hsys).
    destruct fl as [|a fl].
    + rewrite (allocate_empty s [] Hinv eq_refl) in Hrun.
      injection Hrun as <- <-. exists []. auto.
    + destruct (allocate_cons s (a :: fl) Hinv a fl eq_refl)
        as (s1 & Hrun1 & Hinv1 & Hlay1 & Hsys1).
      rewrite Hrun1 in Hrun. injection Hrun as <- <-.
      exists fl. split; [exact Hinv1|].
      split; [|split; [eapply same_layout_trans; eassumption | congruence]].
      pose proof (inv_nodup _ _ Hinv) as Hnd.
      apply NoDup_cons in Hnd as [Hnotin _].
      assert (Ha : is_header (self s) a) by (apply (inv_free _ _ Hinv); left).
      intros x. rewrite elem_of_union, elem_of_singleton, (Hlive x).
      split.
      * intros [->|[Hh Hn]].
        -- replace (a + sizeof_ptr - sizeof_ptr) with a by lia.
           split; [eapply same_layout_header; eassumption | exact Hnotin].
        -- split; [eapply same_layout_header; eassumption|].
           intros Hin. apply Hn. right. exact Hin.
      * intros [Hh Hn].
        destruct (decide (x - sizeof_ptr = a)) as [Heq|Hne]; [left; lia|].
        right. split.
        -- destruct Hlay1 as (_ & _ & Hm & Hst & _ & _ & _ & Hstr).
           destruct Hh as (k & Hk & Hxk). exists k.
           unfold header_at, nth_header in *. rewrite <- Hm, <- Hst, <- Hstr. auto.
        -- intros Hin. apply elem_of_cons in Hin as [?|?]; auto.
  - destruct IH as (fl & Hinv & Hlive & Hlay & Hsys).
    destruct (isBlockInUse s x) eqn:Huse.
    + destruct (deallocate_in_use s fl Hinv x Hx Huse)
        as (s1 & Hrun1 & Hinv1 & _ & Hlay1 & Hsys1).
      rewrite Hrun1 in Hrun. injection Hrun as <- <-.
      exists ((x - sizeof_ptr) :: fl). split; [exact Hinv1|].
      split; [|split; [eapply same_layout_trans; eassumption | congruence]].
      intros y. rewrite elem_of_difference, elem_of_singleton, (Hlive y).
      split.
      * intros [[Hh Hn] Hne].
        split; [eapply same_layout_header; eassumption|].
        intros Hin. apply elem_of_cons in Hin as [?|?]; [lia | auto].
      * intros [Hh Hn]. split; [split|].
        -- destruct Hlay1 as (_ & _ & Hm & Hst & _ & _ & _ & Hstr).
           destruct Hh as (k & Hk & Hxk). exists k.
           unfold header_at, nth_header in *. rewrite <- Hm, <- Hst, <- Hstr. auto.
        -- intros Hin. apply Hn. right. exact Hin.
        -- intros ->. apply Hn. left.
    + rewrite (deallocate_rejected s fl Hinv x Huse) in Hrun.
      injection Hrun as <- <-. exists fl. auto.
Qed.

End Reachable.

(** * Construction *)

(** The constructor never answers [InvalidConstructorParametersException]
    once both checks have passed. *)
Lemma BlockAllocator_new_checks malloc m0 size blocks memoryPool :
  BlockAllocator_new malloc m0 size blocks memoryPool
  = Throw InvalidConstructorParametersException <->
  (size =? 0) || (blocks =? 0) = true \/
  isSizeCorrect (member_init size blocks) size blocks = false.
Proof.
  unfold BlockAllocator_new. cbn [blockSize maxBlocks headerSize member_init].
  destruct ((size =? 0) || (blocks =? 0)); [tauto|].
  destruct (isSizeCorrect _ size blocks); cbn [negb]; [|tauto].
  split; [|intros [?|?]; discriminate].
  destruct (memoryPool =? NULL).
  - destruct (_ =? NULL); [discriminate|].
    destruct (buildBlocksList _ _); discriminate.
  - destruct (buildBlocksList _ _); discriminate.
Qed.

(** C4.  For a block size and a block count in the range of [size_t], the
    constructor throws [InvalidConstructorParametersException] exactly when
    the block size is zero, or the block count is zero, or
    [(blockSize + headerSize) * maxBlocks] exceeds the largest [size_t]; the
    last condition is what [isSizeCorrect] decides by its division test, and
    the test also refuses when [SIZE_MAX / maxBlocks] is below the header
    size. *)
Theorem constructor_invalid_parameters malloc m0 size blocks memoryPool :
  0 <= size <= SIZE_MAX -> 0 <= blocks <= SIZE_MAX ->
  (BlockAllocator_new malloc m0 size blocks memoryPool
   = Throw InvalidConstructorParametersException <->
   size = 0 \/ blocks = 0 \/ SIZE_MAX < (size + getHeaderSize) * blocks) /\
  (blocks <> 0 ->
   (isSizeCorrect (member_init size blocks) size blocks = true <->
    size <= SIZE_MAX / blocks - getHeaderSize) /\
   (isSizeCorrect (member_init size blocks) size blocks = false <->
    SIZE_MAX < (size + getHeaderSize) * blocks) /\
   (SIZE_MAX / blocks < getHeaderSize ->
    isSizeCorrect (member_init size blocks) size blocks = false)).
Proof.
  intros Hs Hb. unfold getHeaderSize.
  assert (Hdec : blocks <> 0 ->
            isSizeCorrect (member_init size blocks) size blocks = false <->
            SIZE_MAX < (size + sizeof_ptr) * blocks).
  { intros Hnz.
    pose proof (isSizeCorrect_iff (member_init size blocks) size blocks
                  eq_refl Hs ltac:(lia)) as Hiff.
    destruct (isSizeCorrect _ size blocks).
    - split; [discriminate|]. intros Hgt.
      pose proof (proj1 Hiff eq_refl). lia.
    - split; [|reflexivity]. intros _.
      destruct (Z_le_gt_dec ((size + sizeof_ptr) * blocks) SIZE_MAX) as [Hle|Hgt];
        [|lia].
      apply Hiff in Hle. discriminate. }
  split; [|intros Hnz; split; [|split; [apply Hdec; exact Hnz|]]].
  - rewrite BlockAllocator_new_checks. split.
    + intros [Hz|Hbad].
      * apply orb_true_iff in Hz as [Hz|Hz]; apply Z.eqb_eq in Hz; auto.
      * destruct (decide (blocks = 0)) as [?|Hnz]; [auto|].
        right. right. apply Hdec; assumption.
    + intros [->|[->|Hgt]].
      * left. reflexivity.
      * left. apply orb_true_r.
      * destruct (decide (blocks = 0)) as [->|Hnz]; [left; apply orb_true_r|].
        right. apply Hdec; assumption.
  - unfold isSizeCorrect, getHeaderSize. cbn [headerSize member_init].
    assert (Hq : 0 <= SIZE_MAX / blocks <= SIZE_MAX).
    { split; [apply Z.div_pos; rewrite ?SIZE_MAX_eq; lia|].
      apply Z.div_le_upper_bound; [lia|]. rewrite SIZE_MAX_eq in *. nia. }
    unfold sizeof_ptr.
    destruct (Z.ltb_spec (SIZE_MAX / blocks) 8) as [Hlt|Hge].
    + split; [discriminate|lia].
    + rewrite wrap_small by (unfold SIZE_MAX in *; lia). apply Z.leb_le.
  - unfold isSizeCorrect, getHeaderSize. intros Hlt.
    apply Z.ltb_lt in Hlt. rewrite Hlt. reflexivity.
Qed.

Lemma constructor_invalid_parameters_witness :
  BlockAllocator_new (fun _ => 4096) ∅ SIZE_MAX 2 NULL
  = Throw InvalidConstructorParametersException <->
  SIZE_MAX = 0 \/ 2 = 0 \/ SIZE_MAX < (SIZE_MAX + getHeaderSize) * 2.
Proof.
  apply (constructor_invalid_parameters (fun _ => 4096) ∅ SIZE_MAX 2 NULL);
    vm_compute; split; discriminate.
Defined.

Lemma fresh_allocations malloc m0 size blocks memoryPool :
  accepted size blocks ->
  usable_buffer (buffer_of malloc size blocks memoryPool) size blocks ->
  exists s0 s',
    BlockAllocator_new malloc m0 size blocks memoryPool = Return s0 /\
    allocate_n (Z.to_nat blocks) s0
    = (Return <$> fresh_addresses (buffer_of malloc size blocks memoryPool)
                    size blocks, s') /\
    pool_inv s' [] /\ getBlockSize s0 = size.
Proof.
  intros Hacc Hbuf.
  destruct (BlockAllocator_new_ok malloc m0 size blocks memoryPool Hacc Hbuf)
    as (s0 & Hret & Hinv & Hsz & Hmb & Hst & Hstr & _).
  assert (Hlen : length (fresh_list (self s0)) = Z.to_nat blocks).
  { rewrite fresh_list_length; rewrite Hmb; [reflexivity|].
    destruct Hacc as (_ & ? & _). lia. }
  destruct (allocate_n_spec (Z.to_nat blocks) s0 _ Hinv ltac:(lia))
    as (s' & Hrun & Hinv' & _).
  rewrite <- Hlen, firstn_all in Hrun. rewrite <- Hlen, drop_all in Hinv'.
  exists s0, s'. split; [exact Hret|]. split; [|split; [exact Hinv' | exact Hsz]].
  rewrite Hlen in Hrun. rewrite Hrun. f_equal. f_equal.
  unfold fresh_list, fresh_addresses. rewrite <- list_fmap_compose, Hmb.
  apply list_fmap_ext. intros _ k _. simpl.
  unfold header_at, nth_header, getHeaderSize. rewrite Hst, Hstr. lia.
Qed.

(** C1.  Whenever the size check accepts [(size, blocks)], with both at
    least one, the constructor returns a pool on which [blocks] successive
    calls of [allocate] all return an address, and the call after them
    throws [OutOfAllocatableMemoryException]. *)
Theorem fresh_pool_serves_maxBlocks malloc m0 size blocks memoryPool :
  accepted size blocks ->
  usable_buffer (buffer_of malloc size blocks memoryPool) size blocks ->
  exists s0 addrs s',
    BlockAllocator_new malloc m0 size blocks memoryPool = Return s0 /\
    allocate_n (Z.to_nat blocks) s0 = (Return <$> addrs, s') /\
    length addrs = Z.to_nat blocks /\
    allocate s' = (Throw OutOfAllocatableMemoryException, s').
Proof.
  intros Hacc Hbuf.
  destruct (fresh_allocations malloc m0 size blocks memoryPool Hacc Hbuf)
    as (s0 & s' & Hret & Hrun & Hinv & _).
  exists s0, (fresh_addresses (buffer_of malloc size blocks memoryPool)
                size blocks), s'.
  split; [exact Hret|]. split; [exact Hrun|]. split.
  - unfold fresh_addresses. rewrite length_fmap. apply length_seqZ.
  - apply (allocate_empty s' [] Hinv eq_refl).
Qed.

Lemma fresh_pool_serves_maxBlocks_witness :
  exists s0 addrs s',
    BlockAllocator_new (fun _ => 4096) ∅ 20 4 NULL = Return s0 /\
    allocate_n (Z.to_nat 4) s0 = (Return <$> addrs, s') /\
    length addrs = Z.to_nat 4 /\
    allocate s' = (Throw OutOfAllocatableMemoryException, s').
Proof.
  apply (fresh_pool_serves_maxBlocks (fun _ => 4096) ∅ 20 4 NULL).
  - unfold accepted. vm_compute. repeat split; discriminate.
  - unfold usable_buffer. vm_compute. split; [reflexivity | discriminate].
Defined.

(** C6.  On a freshly built pool, [blocks] successive calls of [allocate]
    return the addresses [a + k * (blockSize + headerSize)] for
    [k = 0, 1, ...], where [a] is the first block of the buffer: each is
    larger than the one before by exactly [blockSize + headerSize].  For
    [blockSize = 64] and four blocks these are [a], [a + 72], [a + 144] and
    [a + 216]. *)
Theorem fresh_allocations_ascending malloc m0 size blocks memoryPool :
  accepted size blocks ->
  usable_buffer (buffer_of malloc size blocks memoryPool) size blocks ->
  exists s0 addrs s',
    BlockAllocator_new malloc m0 size blocks memoryPool = Return s0 /\
    allocate_n (Z.to_nat blocks) s0 = (Return <$> addrs, s') /\
    length addrs = Z.to_nat blocks /\
    (forall (i : nat) x y, addrs !! i = Some x -> addrs !! S i = Some y ->
       x < y /\ y - x = getBlockSize s0 + getHeaderSize) /\
    (size = 64 -> blocks = 4 ->
     let a := buffer_of malloc size blocks memoryPool + getHeaderSize in
     addrs = [a; a + 72; a + 144; a + 216]).
Proof.
  intros Hacc Hbuf.
  destruct (fresh_allocations malloc m0 size blocks memoryPool Hacc Hbuf)
    as (s0 & s' & Hret & Hrun & _ & Hsz).
  exists s0, (fresh_addresses (buffer_of malloc size blocks memoryPool)
                size blocks), s'.
  split; [exact Hret|]. split; [exact Hrun|]. split; [|split].
  - unfold fresh_addresses. rewrite length_fmap. apply length_seqZ.
  - intros i x y Hx Hy. unfold fresh_addresses in *.
    rewrite list_lookup_fmap in Hx, Hy.
    destruct (seqZ 0 blocks !! i) as [k|] eqn:Hk; [|discriminate].
    destruct (seqZ 0 blocks !! S i) as [k'|] eqn:Hk'; [|discriminate].
    apply lookup_seqZ in Hk as [-> _]. apply lookup_seqZ in Hk' as [-> _].
    simpl in Hx, Hy. injection Hx as <-. injection Hy as <-.
    rewrite Hsz. destruct Hacc as (Hs & _). unfold getHeaderSize, sizeof_ptr.
    lia.
  - intros -> -> a. unfold fresh_addresses.
    change (seqZ 0 4) with [0; 1; 2; 3]. subst a.
    unfold getHeaderSize, sizeof_ptr. cbn [fmap list_fmap].
    f_equal. lia.
Qed.

Lemma fresh_allocations_ascending_witness :
  exists s0 s',
    BlockAllocator_new (fun _ => 4096) ∅ 64 4 NULL = Return s0 /\
    allocate_n 4 s0 = (Return <$> [4104; 4176; 4248; 4320], s').
Proof.
  destruct (fresh_allocations_ascending (fun _ => 4096) ∅ 64 4 NULL)
    as (s0 & addrs & s' & Hret & Hrun & _ & _ & Haddrs).
  - unfold accepted. vm_compute. repeat split; discriminate.
  - unfold usable_buffer. vm_compute. split; [reflexivity | discriminate].
  - exists s0, s'. split; [exact Hret|].
    rewrite (Haddrs eq_refl eq_refl) in Hrun. exact Hrun.
Defined.

(** C9.  Every block size of at least one byte that passes the size check,
    sizes below the header size included, is stored as passed: the
    constructor returns a pool whose [getBlockSize] is that value, and it is
    still that value in every state reached by calls of [allocate] and
    [deallocate]. *)
Theorem block_size_kept malloc m0 size blocks memoryPool :
  1 <= size <= SIZE_MAX -> 1 <= blocks <= SIZE_MAX ->
  isSizeCorrect (member_init size blocks) size blocks = true ->
  usable_buffer (buffer_of malloc size blocks memoryPool) size blocks ->
  exists s0,
    BlockAllocator_new malloc m0 size blocks memoryPool = Return s0 /\
    getBlockSize s0 = size /\
    forall s live, reachable s0 s live -> getBlockSize s = size.
Proof.
  intros Hs Hb Hok Hbuf.
  assert (Hacc : accepted size blocks).
  { apply isSizeCorrect_iff in Hok; [|reflexivity|lia|lia].
    unfold accepted. lia. }
  destruct (BlockAllocator_new_ok malloc m0 size blocks memoryPool Hacc Hbuf)
    as (s0 & Hret & _ & Hsz & _).
  exists s0. split; [exact Hret|]. split; [exact Hsz|].
  intros s live Hreach.
  assert (Hcons : constructed malloc m0 size blocks memoryPool s0)
    by (constructor; [lia | lia | exact Hbuf | exact Hret]).
  destruct (reachable_inv _ _ _ _ _ _ Hcons s live Hreach)
    as (fl & _ & _ & (Heq & _) & _).
  unfold getBlockSize. congruence.
Qed.

Lemma block_size_kept_witness :
  exists s0,
    BlockAllocator_new (fun _ => 4096) ∅ 1 3 NULL = Return s0 /\
    getBlockSize s0 = 1 /\
    forall s live, reachable s0 s live -> getBlockSize s = 1.
Proof.
  apply (block_size_kept (fun _ => 4096) ∅ 1 3 NULL).
  - vm_compute. split; discriminate.
  - vm_compute. split; discriminate.
  - vm_compute. reflexivity.
  - unfold usable_buffer. vm_compute. split; [reflexivity | discriminate].
Defined.

(** * Address validation on a live pool *)

Lemma same_layout_sym b b' : same_layout b b' -> same_layout b' b.
Proof. unfold same_layout. intuition congruence. Qed.

Lemma header_payload b a :
  layout_ok b ->
  is_header b (a - sizeof_ptr) <->
  exists k, 0 <= k < maxBlocks b /\
            a = startHeader b + headerSize b + k * (blockSize b + headerSize b).
Proof.
  intros Hlay. unfold is_header, header_at, nth_header.
  rewrite (lay_header _ Hlay), (lay_stride _ Hlay).
  split; intros (k & Hk & Ha); exists k; (split; [exact Hk | lia]).
Qed.

(** C5.  In every state of a pool's life and for every address [a],
    [isBlockAddress] answers [true] exactly when [a] is
    [startHeader + headerSize + k * (blockSize + headerSize)] for some [k]
    from [0] to [maxBlocks - 1].  It answers [false] for [NULL], when
    [a - headerSize] lies outside [startHeader .. endHeader], and when
    [a - headerSize - startHeader] is not a multiple of the stride; it
    answers [true] for every address that [allocate] returned at any point
    of the pool's life. *)
Theorem isBlockAddress_characterised malloc m0 size blocks memoryPool s0
    s live a :
  constructed malloc m0 size blocks memoryPool s0 ->
  reachable s0 s live ->
  0 <= a < ADDR_MOD ->
  let b := self s in
  (isBlockAddress s a = true <->
   exists k, 0 <= k < maxBlocks b /\
             a = startHeader b + headerSize b + k * (blockSize b + headerSize b)) /\
  (a = NULL -> isBlockAddress s a = false) /\
  (a - headerSize b < startHeader b \/ endHeader b < a - headerSize b ->
   isBlockAddress s a = false) /\
  ((a - headerSize b - startHeader b) `mod` (blockSize b + headerSize b) <> 0 ->
   isBlockAddress s a = false) /\
  (forall s1 live1 x s1',
     reachable s0 s1 live1 -> allocate s1 = (Return x, s1') ->
     isBlockAddress s x = true).
Proof.
  intros Hcons Hreach Ha b. subst b.
  destruct (reachable_inv _ _ _ _ _ _ Hcons s live Hreach)
    as (fl & Hinv & _ & Hsame & _).
  pose proof (inv_layout _ _ Hinv) as Hlay.
  assert (Htest : isBlockAddress s a = true <->
            startHeader (self s) <= a - sizeof_ptr <= endHeader (self s) /\
            (a - sizeof_ptr - startHeader (self s))
              `mod` blockWithHeaderSize (self s) = 0).
  { rewrite (isBlockAddress_iff s Hlay a Ha).
    apply (is_header_test (self s) Hlay). }
  split; [|split; [|split; [|split]]].
  - rewrite (isBlockAddress_iff s Hlay a Ha).
    apply (header_payload (self s) a Hlay).
  - intros ->. unfold isBlockAddress. reflexivity.
  - rewrite (lay_header _ Hlay).
    intros Hout. destruct (isBlockAddress s a); [|reflexivity].
    pose proof (proj1 Htest eq_refl). lia.
  - rewrite (lay_header _ Hlay), <- (lay_stride _ Hlay).
    intros Hmod. destruct (isBlockAddress s a); [|reflexivity].
    pose proof (proj1 Htest eq_refl). tauto.
  - intros s1 live1 x s1' Hreach1 Hrun.
    destruct (reachable_inv _ _ _ _ _ _ Hcons s1 live1 Hreach1)
      as (fl1 & Hinv1 & _ & Hsame1 & _).
    destruct fl1 as [|a1 fl1].
    + rewrite (allocate_empty s1 [] Hinv1 eq_refl) in Hrun. discriminate.
    + destruct (allocate_cons s1 _ Hinv1 a1 fl1 eq_refl) as (s2 & Hrun2 & _).
      rewrite Hrun2 in Hrun. injection Hrun as <- _.
      assert (Hh : is_header (self s) a1).
      { apply (same_layout_header (self s0)); [exact Hsame|].
        apply (same_layout_header (self s1));
          [apply same_layout_sym; exact Hsame1|].
        apply (inv_free _ _ Hinv1). left. }
      pose proof (header_word (self s) Hlay a1 Hh) as [Hlo Hhi].
      apply (isBlockAddress_iff s Hlay); [unfold sizeof_ptr in *; lia|].
      replace (a1 + sizeof_ptr - sizeof_ptr) with a1 by lia. exact Hh.
Qed.

Lemma sample_fresh_constructed :
  constructed (fun _ => 4096) ∅ 16 4 NULL sample_fresh.
Proof.
  constructor.
  - vm_compute. split; discriminate.
  - vm_compute. split; discriminate.
  - unfold usable_buffer. vm_compute. split; [reflexivity | discriminate].
  - vm_compute. reflexivity.
Defined.

Lemma sample_pool_reachable : reachable sample_fresh sample_pool {[4128]}.
Proof.
  assert (H1 : allocate sample_fresh
               = (Return 4104, snd (allocate sample_fresh)))
    by (vm_compute; reflexivity).
  assert (H2 : allocate (snd (allocate sample_fresh))
               = (Return 4128, snd (allocate (snd (allocate sample_fresh)))))
    by (vm_compute; reflexivity).
  assert (H3 : deallocate 4104 (snd (allocate (snd (allocate sample_fresh))))
               = (Return tt, sample_pool))
    by (vm_compute; reflexivity).
  pose proof (reach_deallocate sample_fresh _ _ 4104 _ _
                (reach_allocate sample_fresh _ _ _ _
                   (reach_allocate sample_fresh _ _ _ _
                      (reach_new sample_fresh) H1) H2)
                ltac:(vm_compute; split; [discriminate | reflexivity]) H3)
    as Hreach.
  replace ({[4128]} : gset Z)
    with (({[4128]} ∪ ({[4104]} ∪ ∅)) ∖ {[4104]} : gset Z);
    [exact Hreach|].
  apply leibniz_equiv. set_solver.
Defined.

Lemma isBlockAddress_characterised_witness :
  isBlockAddress sample_pool 4152 = true <->
  exists k, 0 <= k < 4 /\ 4152 = 4096 + 8 + k * (16 + 8).
Proof.
  exact (proj1 (isBlockAddress_characterised (fun _ => 4096) ∅ 16 4 NULL
                  sample_fresh sample_pool {[4128]} 4152
                  sample_fresh_constructed sample_pool_reachable
                  ltac:(vm_compute; split; [discriminate | reflexivity]))).
Defined.

(** * Deallocation *)

Section LivePool.
Variables (malloc : Z -> Z) (m0 : gmap Z Z) (size blocks memoryPool : Z).
Variable s0 : State.
Hypothesis Hcons : constructed malloc m0 size blocks memoryPool s0.
Variables (s : State) (live : gset Z).
Hypothesis Hreach : reachable s0 s live.

(** On a live pool [isBlockInUse] tells whether the address is handed
    out. *)
Lemma isBlockInUse_live x :
  0 <= x < ADDR_MOD -> isBlockInUse s x = true <-> x ∈ live.
Proof.
  intros Hx.
  destruct (reachable_inv _ _ _ _ _ _ Hcons s live Hreach)
    as (fl & Hinv & Hlive & _).
  rewrite (isBlockInUse_iff s fl Hinv x Hx). symmetry. apply Hlive.
Qed.

Lemma live_in_range x : x ∈ live -> 0 <= x < ADDR_MOD.
Proof.
  intros Hx.
  destruct (reachable_inv _ _ _ _ _ _ Hcons s live Hreach)
    as (fl & Hinv & Hlive & _).
  destruct (proj1 (Hlive x) Hx) as [Hh _].
  apply (header_word _ (inv_layout _ _ Hinv)) in Hh.
  unfold sizeof_ptr in *. lia.
Qed.

(** The call either throws [InvalidBlockAddressException] and leaves the
    state alone, or returns. *)
Lemma deallocate_cases x :
  0 <= x < ADDR_MOD ->
  (isBlockInUse s x = false /\
   deallocate x s = (Throw InvalidBlockAddressException, s)) \/
  (isBlockInUse s x = true /\
   exists s1, deallocate x s = (Return tt, s1) /\
              exists s2, allocate s1 = (Return x, s2)).
Proof.
  intros Hx.
  destruct (reachable_inv _ _ _ _ _ _ Hcons s live Hreach)
    as (fl & Hinv & _).
  destruct (isBlockInUse s x) eqn:Huse.
  - right. split; [reflexivity|].
    destruct (deallocate_in_use s fl Hinv x Hx Huse)
      as (s1 & Hrun & Hinv1 & _).
    exists s1. split; [exact Hrun|].
    destruct (allocate_cons s1 _ Hinv1 _ fl eq_refl) as (s2 & Hrun2 & _).
    exists s2. rewrite Hrun2. do 2 f_equal. lia.
  - left. split; [reflexivity|].
    apply (deallocate_rejected s fl Hinv x Huse).
Qed.

End LivePool.

(** C2.  In every state of a pool's life and for every address [x],
    [deallocate x] throws [InvalidBlockAddressException] exactly when
    [isBlockAddress] refuses [x] or the header of [x] does not hold the
    in-use flag, which is exactly when [x] is not an address currently
    handed out (freed twice, never allocated, foreign or off the stride);
    and when the call throws, the whole state (the object's fields with
    the head of the free list and the released mutex, the memory, the
    provider log) is the state before the call. *)
Theorem deallocate_invalid_address malloc m0 size blocks memoryPool s0
    s live x :
  constructed malloc m0 size blocks memoryPool s0 ->
  reachable s0 s live ->
  0 <= x < ADDR_MOD ->
  (fst (deallocate x s) = Throw InvalidBlockAddressException <->
   isBlockAddress s x = false \/
   Mem.load_ptr (mem s) (wrap (x - headerSize (self s)))
   <> blockInUseFlag (self s)) /\
  (fst (deallocate x s) = Throw InvalidBlockAddressException <-> x ∉ live) /\
  (forall e, fst (deallocate x s) = Throw e -> snd (deallocate x s) = s).
Proof.
  intros Hcons Hreach Hx.
  pose proof (isBlockInUse_live _ _ _ _ _ _ Hcons s live Hreach x Hx) as Hlive.
  assert (Hflag : isBlockInUse s x = false <->
            isBlockAddress s x = false \/
            Mem.load_ptr (mem s) (wrap (x - headerSize (self s)))
            <> blockInUseFlag (self s)).
  { unfold isBlockInUse. destruct (isBlockAddress s x); cbn [negb].
    - destruct (Z.eqb_spec
                  (Mem.load_ptr (mem s) (wrap (x - headerSize (self s))))
                  (blockInUseFlag (self s))) as [Heq|Hne].
      + split; [discriminate|]. intros [?|?]; [discriminate | contradiction].
      + split; [auto | reflexivity].
    - split; [auto | reflexivity]. }
  destruct (deallocate_cases _ _ _ _ _ _ Hcons s live Hreach x Hx)
    as [[Huse Hrun] | [Huse (s1 & Hrun & _)]]; rewrite Hrun; cbn [fst snd].
  - split; [|split].
    + split; [intros _; apply Hflag; exact Huse | reflexivity].
    + split; [|reflexivity]. intros _ Hin. apply Hlive in Hin. congruence.
    + reflexivity.
  - split; [|split].
    + split; [discriminate|]. intros Hbad. apply Hflag in Hbad. congruence.
    + split; [discriminate|]. intros Hnot. exfalso. apply Hnot, Hlive, Huse.
    + discriminate.
Qed.

Lemma deallocate_invalid_address_witness :
  (fst (deallocate 4104 sample_pool) = Throw InvalidBlockAddressException <->
   (4104 : Z) ∉ ({[4128]} : gset Z)) /\
  (forall e, fst (deallocate 4104 sample_pool) = Throw e ->
             snd (deallocate 4104 sample_pool) = sample_pool).
Proof.
  exact (proj2 (deallocate_invalid_address (fun _ => 4096) ∅ 16 4 NULL
                  sample_fresh sample_pool {[4128]} 4104
                  sample_fresh_constructed sample_pool_reachable
                  ltac:(vm_compute; split; [discriminate | reflexivity]))).
Defined.

(** C3.  In every state of a pool's life, for every address [x] currently
    handed out, [deallocate x] returns and the [allocate] that follows
    returns [x]; more generally any [deallocate x] that returns is followed
    by an [allocate] that returns [x].  In particular after [allocate]
    returned [A] and then [B], [deallocate A] followed by [allocate] yields
    [A], which is not [B]. *)
Theorem deallocate_then_allocate malloc m0 size blocks memoryPool s0 s live :
  constructed malloc m0 size blocks memoryPool s0 ->
  reachable s0 s live ->
  (forall x, x ∈ live ->
     exists s1 s2, deallocate x s = (Return tt, s1) /\
                   allocate s1 = (Return x, s2)) /\
  (forall x s1, 0 <= x < ADDR_MOD -> deallocate x s = (Return tt, s1) ->
     exists s2, allocate s1 = (Return x, s2)) /\
  (forall A sA B sB,
     allocate s = (Return A, sA) -> allocate sA = (Return B, sB) ->
     A <> B /\
     exists s1 s2, deallocate A sB = (Return tt, s1) /\
                   allocate s1 = (Return A, s2)).
Proof.
  intros Hcons Hreach.
  assert (Hgen : forall s' live' x, reachable s0 s' live' -> x ∈ live' ->
            exists s1 s2, deallocate x s' = (Return tt, s1) /\
                          allocate s1 = (Return x, s2)).
  { intros s' live' x Hreach' Hx.
    pose proof (live_in_range _ _ _ _ _ _ Hcons s' live' Hreach' x Hx) as Hrng.
    destruct (deallocate_cases _ _ _ _ _ _ Hcons s' live' Hreach' x Hrng)
      as [[Huse _] | [_ (s1 & Hrun & s2 & Hrun2)]].
    - apply (isBlockInUse_live _ _ _ _ _ _ Hcons s' live' Hreach' x Hrng) in Hx.
      congruence.
    - exists s1, s2. auto. }
  split; [|split].
  - intros x Hx. exact (Hgen s live x Hreach Hx).
  - intros x s1 Hx Hrun.
    destruct (deallocate_cases _ _ _ _ _ _ Hcons s live Hreach x Hx)
      as [[_ Hthrow] | [_ (s1' & Hrun' & s2 & Hrun2)]]; [congruence|].
    rewrite Hrun' in Hrun. injection Hrun as <-. exists s2. exact Hrun2.
  - intros A sA B sB HA HB.
    pose proof (reach_allocate s0 s live _ _ Hreach HA) as HreachA.
    pose proof (reach_allocate s0 sA _ _ _ HreachA HB) as HreachB.
    cbn in HreachA, HreachB.
    split.
    + (* the second call pops a block different from the first *)
      destruct (reachable_inv _ _ _ _ _ _ Hcons s live Hreach)
        as (fl & Hinv & _).
      destruct fl as [|a fl];
        [rewrite (allocate_empty s [] Hinv eq_refl) in HA; discriminate|].
      destruct (allocate_cons s _ Hinv a fl eq_refl) as (sA' & HA' & HinvA & _).
      rewrite HA' in HA. injection HA as <- <-.
      destruct fl as [|b fl];
        [rewrite (allocate_empty sA' [] HinvA eq_refl) in HB; discriminate|].
      destruct (allocate_cons sA' _ HinvA b fl eq_refl) as (sB' & HB' & _).
      rewrite HB' in HB. injection HB as <- _.
      pose proof (inv_nodup _ _ Hinv) as Hnd.
      apply NoDup_cons in Hnd as [Hnotin _].
      intros Heq. apply Hnotin. apply elem_of_cons. left. lia.
    + apply (Hgen sB _ A HreachB). set_solver.
Qed.

Lemma deallocate_then_allocate_witness :
  exists s1 s2, deallocate 4128 sample_pool = (Return tt, s1) /\
                allocate s1 = (Return 4128, s2).
Proof.
  apply (proj1 (deallocate_then_allocate (fun _ => 4096) ∅ 16 4 NULL
                  sample_fresh sample_pool {[4128]}
                  sample_fresh_constructed sample_pool_reachable)).
  apply elem_of_singleton. reflexivity.
Defined.

(** * The free-list invariant *)

Lemma pool_inv_free_list_ok s fl live :
  pool_inv s fl -> live_blocks s fl live -> free_list_ok s live.
Proof.
  intros Hinv Hlive. exists fl.
  split; [exact (inv_chain _ _ Hinv)|]. split; [exact (inv_nodup _ _ Hinv)|].
  split; [|exact (inv_used _ _ Hinv)].
  intros a. unfold getHeaderSize. rewrite (Hlive (a + sizeof_ptr)).
  replace (a + sizeof_ptr - sizeof_ptr) with a by lia.
  split.
  - intros Hin. split; [exact (inv_free _ _ Hinv a Hin)|]. tauto.
  - intros [Hh Hnot]. destruct (decide (a ∈ fl)) as [Hin|Hnin]; [exact Hin|].
    exfalso. apply Hnot. split; assumption.
Qed.

(** C7.  The free list of a freshly built pool is well formed, and so is
    the free list in every state reached from it by calls of [allocate] and
    [deallocate], returning or throwing: read from [headHeader] it is a
    finite chain without repetition that ends at [NULL], it holds every
    block that is not handed out and none that is, and every block outside
    it carries the in-use flag.  Each single call of [allocate] or
    [deallocate] made in such a state leads to such a state. *)
Theorem free_list_invariant malloc m0 size blocks memoryPool s0 :
  constructed malloc m0 size blocks memoryPool s0 ->
  free_list_ok s0 ∅ /\
  (forall s live, reachable s0 s live -> free_list_ok s live) /\
  (forall s live r s',
     reachable s0 s live -> allocate s = (r, s') ->
     free_list_ok s' (match r with Return x => {[x]} ∪ live | _ => live end)) /\
  (forall s live x r s',
     reachable s0 s live -> 0 <= x < ADDR_MOD -> deallocate x s = (r, s') ->
     free_list_ok s' (match r with Return _ => live ∖ {[x]} | _ => live end)).
Proof.
  intros Hcons.
  assert (Hall : forall s live, reachable s0 s live -> free_list_ok s live).
  { intros s live Hreach.
    destruct (reachable_inv _ _ _ _ _ _ Hcons s live Hreach)
      as (fl & Hinv & Hlive & _).
    exact (pool_inv_free_list_ok s fl live Hinv Hlive). }
  split; [apply Hall; constructor|]. split; [exact Hall|]. split.
  - intros s live r s' Hreach Hrun. apply Hall.
    exact (reach_allocate s0 s live r s' Hreach Hrun).
  - intros s live x r s' Hreach Hx Hrun. apply Hall.
    exact (reach_deallocate s0 s live x r s' Hreach Hx Hrun).
Qed.

Lemma free_list_invariant_witness :
  free_list_ok sample_fresh ∅ /\ free_list_ok sample_pool {[4128]}.
Proof.
  pose proof (free_list_invariant (fun _ => 4096) ∅ 16 4 NULL sample_fresh
                sample_fresh_constructed) as (Hfresh & Hall & _).
  split; [exact Hfresh|]. exact (Hall _ _ sample_pool_reachable).
Defined.

(** * Ownership of the buffer *)

(** C8.  A pool built over a caller's buffer (a non-null [memoryPool]) has
    pool type [External] throughout its life, and its destructor changes
    nothing: no call to the provider is logged, so the buffer is not
    released, and memory is as it was.  A pool built without a buffer has
    pool type [Internal]; its buffer is the one the provider returned, and
    the destructor leaves memory as it was and logs a single release, of
    that buffer. *)
Theorem pool_ownership malloc m0 size blocks memoryPool s0 s live :
  constructed malloc m0 size blocks memoryPool s0 ->
  reachable s0 s live ->
  (memoryPool <> NULL ->
   getPoolType s = External /\
   BlockAllocator_delete s = s /\
   sys (BlockAllocator_delete s) = []) /\
  (memoryPool = NULL ->
   getPoolType s = Internal /\
   mem (BlockAllocator_delete s) = mem s /\
   exists buf,
     buf = malloc ((size + getHeaderSize) * blocks) /\
     startHeader (self s) = buf /\
     sys s = [SysMalloc ((size + getHeaderSize) * blocks) buf] /\
     sys (BlockAllocator_delete s)
     = [SysMalloc ((size + getHeaderSize) * blocks) buf; SysFree buf]).
Proof.
  intros Hcons Hreach.
  destruct (constructed_inv _ _ _ _ _ _ Hcons)
    as (Hinv0 & _ & _ & Hst & _ & Hty & Hsys).
  destruct (reachable_inv _ _ _ _ _ _ Hcons s live Hreach)
    as (fl & Hinv & _ & (_ & _ & _ & Hst' & _ & Hty' & _) & Hsys').
  unfold getPoolType, BlockAllocator_delete, getHeaderSize.
  rewrite Hty', Hty, Hsys', Hsys, Hst', Hst. unfold buffer_of.
  split.
  - intros Hext. apply Z.eqb_neq in Hext. rewrite Hext.
    split; [reflexivity|]. split; [reflexivity|].
    rewrite Hsys', Hsys, Hext. reflexivity.
  - intros ->. cbn [Z.eqb NULL].
    pose proof (lay_start _ (inv_layout _ _ Hinv0)) as Hgt.
    rewrite Hst in Hgt. unfold buffer_of in Hgt. cbn [Z.eqb NULL] in Hgt.
    destruct (Z.eqb_spec (malloc ((size + sizeof_ptr) * blocks)) NULL) as [Hz|_];
      [unfold NULL in Hz; lia|].
    cbn [negb]. split; [reflexivity|]. split; [reflexivity|].
    eexists. split; [reflexivity|]. split; [reflexivity|].
    split; [reflexivity|]. cbn [sys log_sys]. rewrite Hsys', Hsys.
    reflexivity.
Qed.

Lemma pool_ownership_witness :
  getPoolType sample_pool = Internal /\
  mem (BlockAllocator_delete sample_pool) = mem sample_pool /\
  exists buf,
    buf = 4096 /\
    startHeader (self sample_pool) = buf /\
    sys sample_pool = [SysMalloc ((16 + getHeaderSize) * 4) buf] /\
    sys (BlockAllocator_delete sample_pool)
    = [SysMalloc ((16 + getHeaderSize) * 4) buf; SysFree buf].
Proof.
  exact (proj2 (pool_ownership (fun _ => 4096) ∅ 16 4 NULL
                  sample_fresh sample_pool {[4128]}
                  sample_fresh_constructed sample_pool_reachable) eq_refl).
Defined.

Example sample_external_teardown :
  getPoolType sample_external = External /\
  BlockAllocator_delete sample_external = sample_external /\
  sys sample_external = [].
Proof. vm_compute. auto. Qed.

(** * Concurrent use *)

(** ** The addresses held by the threads *)

Lemma elem_of_held_set ts x :
  x ∈ held_set ts <-> exists i t, ts !! i = Some t /\ held (loc t) = Some x.
Proof.
  unfold held_set. rewrite elem_of_list_to_set, list_elem_of_omap.
  split.
  - intros (t & Hin & Hh). apply list_elem_of_lookup in Hin as [i Hi]. eauto.
  - intros (i & t & Hi & Hh). exists t. split; [|exact Hh].
    apply list_elem_of_lookup. eauto.
Qed.

Lemma lookup_update (ts : list Thread) i j t t' tj :
  ts !! i = Some t -> <[i := t']> ts !! j = Some tj ->
  (j = i /\ tj = t') \/ (j <> i /\ ts !! j = Some tj).
Proof.
  intros Hi Hj. destruct (decide (j = i)) as [->|Hne].
  - left. split; [reflexivity|].
    rewrite list_lookup_insert_eq in Hj by (eapply lookup_lt_Some; eauto).
    congruence.
  - right. split; [exact Hne|].
    rewrite list_lookup_insert_ne in Hj by congruence. exact Hj.
Qed.

(** The thread moves without acquiring or giving back a block. *)
Lemma held_set_same (ts : list Thread) i t t' :
  ts !! i = Some t -> held (loc t') = held (loc t) ->
  held_set (<[i := t']> ts) = held_set ts.
Proof.
  intros Hi Hsame. apply set_eq. intros x. rewrite !elem_of_held_set. split.
  - intros (j & tj & Hj & Hh).
    destruct (lookup_update ts i j t t' tj Hi Hj) as [[-> ->]|[_ Hj']].
    + exists i, t. split; [exact Hi | congruence].
    + eauto.
  - intros (j & tj & Hj & Hh). destruct (decide (j = i)) as [->|Hne].
    + exists i, t'. split.
      * apply list_lookup_insert_eq. eapply lookup_lt_Some; eauto.
      * congruence.
    + exists j, tj. rewrite list_lookup_insert_ne by congruence. auto.
Qed.

(** The thread obtains the block [x]. *)
Lemma held_set_acquire (ts : list Thread) i t t' x :
  ts !! i = Some t -> held (loc t) = None -> held (loc t') = Some x ->
  held_set (<[i := t']> ts) = {[x]} ∪ held_set ts.
Proof.
  intros Hi Hnone Hsome. apply set_eq. intros y.
  rewrite elem_of_union, elem_of_singleton, !elem_of_held_set. split.
  - intros (j & tj & Hj & Hh).
    destruct (lookup_update ts i j t t' tj Hi Hj) as [[-> ->]|[_ Hj']].
    + left. congruence.
    + right. eauto.
  - intros [->|(j & tj & Hj & Hh)].
    + exists i, t'. split; [|exact Hsome].
      apply list_lookup_insert_eq. eapply lookup_lt_Some; eauto.
    + assert (j <> i) by (intros ->; congruence).
      exists j, tj. rewrite list_lookup_insert_ne by congruence. auto.
Qed.

(** The thread gives back the block [x], which no other thread holds. *)
Lemma held_set_release (ts : list Thread) i t t' x :
  ts !! i = Some t -> held (loc t) = Some x -> held (loc t') = None ->
  (forall j tj, ts !! j = Some tj -> held (loc tj) = Some x -> j = i) ->
  held_set (<[i := t']> ts) = held_set ts ∖ {[x]}.
Proof.
  intros Hi Hsome Hnone Honly. apply set_eq. intros y.
  rewrite elem_of_difference, elem_of_singleton, !elem_of_held_set. split.
  - intros (j & tj & Hj & Hh).
    destruct (lookup_update ts i j t t' tj Hi Hj) as [[-> ->]|[Hne Hj']].
    + congruence.
    + split; [eauto|]. intros ->. apply Hne. eapply Honly; eauto.
  - intros [(j & tj & Hj & Hh) Hne].
    assert (j <> i) by (intros ->; congruence).
    exists j, tj. rewrite list_lookup_insert_ne by congruence. auto.
Qed.

Lemma distinct_holders_update (ts : list Thread) i t t' :
  ts !! i = Some t -> distinct_holders ts ->
  (forall x, held (loc t') = Some x ->
     forall j tj, j <> i -> ts !! j = Some tj -> held (loc tj) <> Some x) ->
  distinct_holders (<[i := t']> ts).
Proof.
  intros Hi Hd Hnew j k tj tk x Hj Hk Hhj Hhk.
  destruct (lookup_update ts i j t t' tj Hi Hj) as [[-> ->]|[Hnej Hj']];
    destruct (lookup_update ts i k t t' tk Hi Hk) as [[-> ->]|[Hnek Hk']].
  - reflexivity.
  - exfalso. exact (Hnew x Hhj k tk Hnek Hk' Hhk).
  - exfalso. exact (Hnew x Hhk j tj Hnej Hj' Hhj).
  - exact (Hd j k tj tk x Hj' Hk' Hhj Hhk).
Qed.

Lemma distinct_holders_same (ts : list Thread) i t t' :
  ts !! i = Some t -> distinct_holders ts ->
  (held (loc t') = held (loc t) \/ held (loc t') = None) ->
  distinct_holders (<[i := t']> ts).
Proof.
  intros Hi Hd Hsame. apply (distinct_holders_update ts i t t' Hi Hd).
  intros x Hx j tj Hne Hj Hhj. destruct Hsame as [Hsame|Hnone]; [|congruence].
  apply Hne. apply (Hd j i tj t x Hj Hi Hhj). congruence.
Qed.

(** ** The calls, statement by statement *)

Lemma allocate_unfold sq :
  mutex (self sq) = false -> headHeader (self sq) <> NULL ->
  allocate sq
  = (Return (wrap (headHeader (self sq) + getHeaderSize)),
     set_mutex false
       (set_mem (Mem.store_ptr (mem sq) (headHeader (self sq))
                   (blockInUseFlag (self sq)))
          (set_headHeader (Mem.load_ptr (mem sq) (headHeader (self sq)))
             (set_mutex true sq)))).
Proof.
  intros Hmx Hnz. unfold allocate, lock_guard. rewrite Hmx. cbn.
  destruct (Z.eqb_spec (headHeader (self sq)) NULL); [contradiction|].
  reflexivity.
Qed.

Lemma deallocate_unfold sq x :
  mutex (self sq) = false -> isBlockInUse sq x = true ->
  deallocate x sq
  = (Return tt,
     set_mutex false
       (set_headHeader (wrap (x - headerSize (self sq)))
          (set_mem (Mem.store_ptr (mem sq) (wrap (x - headerSize (self sq)))
                      (headHeader (self sq)))
             (set_mutex true sq)))).
Proof.
  intros Hmx Huse. unfold deallocate, lock_guard.
  rewrite Hmx, isBlockInUse_set_mutex, Huse. reflexivity.
Qed.

(** Run without interruption from a state in which the mutex is free, the
    statements of a call compose to the call: the thread ends up holding the
    address [allocate] returns, or back at its start when [allocate] throws,
    and the shared state is the one [allocate] leaves. *)
Lemma allocate_statements s n :
  mutex (self s) = false ->
  exists k,
    run_thread k (mkThread AllocEnter n) s
    = Some (match fst (allocate s) with
            | Return x => mkThread (Holding x) n
            | _ => mkThread Outside n
            end, snd (allocate s)).
Proof.
  intros Hmx. destruct (Z.eqb_spec (headHeader (self s)) NULL) as [Hz|Hnz].
  - exists 3%nat. unfold allocate, lock_guard. rewrite Hmx.
    cbn. rewrite Hmx. cbn. rewrite Hz. reflexivity.
  - exists 5%nat. rewrite (allocate_unfold s Hmx Hnz).
    cbn. rewrite Hmx. cbn.
    destruct (Z.eqb_spec (headHeader (self s)) NULL); [contradiction|].
    reflexivity.
Qed.

Lemma deallocate_statements s n x :
  mutex (self s) = false ->
  exists k,
    run_thread k (mkThread (DeallocEnter x) n) s
    = Some (match fst (deallocate x s) with
            | Return _ => mkThread Outside (Nat.pred n)
            | _ => mkThread (Holding x) n
            end, snd (deallocate x s)).
Proof.
  intros Hmx. destruct (isBlockInUse s x) eqn:Huse.
  - exists 5%nat. rewrite (deallocate_unfold s x Hmx Huse).
    cbn. rewrite Hmx. cbn. rewrite isBlockInUse_set_mutex, Huse. reflexivity.
  - exists 3%nat. unfold deallocate, lock_guard.
    rewrite Hmx, isBlockInUse_set_mutex, Huse.
    cbn. rewrite Hmx. cbn. rewrite isBlockInUse_set_mutex, Huse. reflexivity.
Qed.

(** ** Preservation of the invariant, by kind of statement *)

Section Interleaving.
Variables (malloc : Z -> Z) (m0 : gmap Z Z) (size blocks memoryPool : Z).
Variable s0 : State.
Hypothesis Hcons : constructed malloc m0 size blocks memoryPool s0.

Variables (sq s : State) (ts : list Thread) (i : nat) (t t' : Thread).
Hypothesis Hinv : sys_inv_at s0 sq s ts.
Hypothesis Hi : ts !! i = Some t.

Lemma quiescent_unlocked : mutex (self sq) = false.
Proof.
  destruct (reachable_inv _ _ _ _ _ _ Hcons sq _ (si_reach _ _ _ _ Hinv))
    as (fl & Hpool & _).
  exact (inv_unlocked _ _ Hpool).
Qed.

(** Inside a guard the mutex is held, by this thread and no other. *)
Lemma critical_owner :
  in_critical (loc t) = true ->
  mutex (self s) = true /\ crit_rel (loc t) sq s /\
  forall j tj, ts !! j = Some tj -> in_critical (loc tj) = true -> j = i.
Proof.
  intros Hcrit. destruct (mutex (self s)) eqn:Hmx.
  - destruct (si_held _ _ _ _ Hinv Hmx) as (i0 & t0 & Hi0 & _ & Hrel & Huniq).
    assert (i = i0) by (eapply Huniq; eauto). subst i0.
    assert (t0 = t) by congruence. subst t0. auto.
  - destruct (si_free _ _ _ _ Hinv Hmx) as [_ Hnone].
    rewrite (Hnone i t Hi) in Hcrit. discriminate.
Qed.

(** A statement outside any guard that touches nothing shared. *)
Lemma inv_move_outside :
  in_critical (loc t) = false -> in_critical (loc t') = false ->
  held (loc t') = held (loc t) ->
  sys_inv_at s0 sq s (<[i := t']> ts).
Proof.
  intros Hout Hout' Hheld. constructor.
  - rewrite (held_set_same ts i t t' Hi Hheld). exact (si_reach _ _ _ _ Hinv).
  - apply (distinct_holders_same ts i t t' Hi); [|left; exact Hheld].
    exact (si_distinct _ _ _ _ Hinv).
  - intros Hmx. destruct (si_free _ _ _ _ Hinv Hmx) as [Hs Hnone].
    split; [exact Hs|]. intros j tj Hj.
    destruct (lookup_update ts i j t t' tj Hi Hj) as [[-> ->]|[_ Hj']]; eauto.
  - intros Hmx.
    destruct (si_held _ _ _ _ Hinv Hmx) as (i0 & t0 & Hi0 & Hc0 & Hrel & Huniq).
    assert (i0 <> i) by (intros ->; congruence).
    exists i0, t0. rewrite list_lookup_insert_ne by congruence.
    split; [exact Hi0|]. split; [exact Hc0|]. split; [exact Hrel|].
    intros j tj Hj Hcj.
    destruct (lookup_update ts i j t t' tj Hi Hj) as [[-> ->]|[_ Hj']];
      [congruence | eauto].
Qed.

(** The constructor of a guard, run while the mutex is free. *)
Lemma inv_lock :
  in_critical (loc t) = false -> in_critical (loc t') = true ->
  held (loc t') = held (loc t) ->
  mutex (self s) = false ->
  crit_rel (loc t') sq (set_mutex true sq) ->
  sys_inv_at s0 sq (set_mutex true s) (<[i := t']> ts).
Proof.
  intros Hout Hin' Hheld Hmx Hrel.
  destruct (si_free _ _ _ _ Hinv Hmx) as [-> Hnone].
  constructor.
  - rewrite (held_set_same ts i t t' Hi Hheld). exact (si_reach _ _ _ _ Hinv).
  - apply (distinct_holders_same ts i t t' Hi); [|left; exact Hheld].
    exact (si_distinct _ _ _ _ Hinv).
  - cbn. discriminate.
  - intros _. exists i, t'. split.
    { apply list_lookup_insert_eq. eapply lookup_lt_Some; eauto. }
    split; [exact Hin'|]. split; [exact Hrel|].
    intros j tj Hj Hcj.
    destruct (lookup_update ts i j t t' tj Hi Hj) as [[-> ->]|[_ Hj']];
      [reflexivity|].
    rewrite (Hnone j tj Hj') in Hcj. discriminate.
Qed.

(** A statement between the construction and the destruction of the
    guard. *)
Lemma inv_inside s' :
  in_critical (loc t) = true -> in_critical (loc t') = true ->
  held (loc t') = held (loc t) ->
  mutex (self s') = mutex (self s) ->
  (crit_rel (loc t) sq s -> crit_rel (loc t') sq s') ->
  sys_inv_at s0 sq s' (<[i := t']> ts).
Proof.
  intros Hin Hin' Hheld Hmx' Hrel.
  destruct (critical_owner Hin) as (Hmx & Hcr & Huniq).
  rewrite Hmx in Hmx'.
  constructor.
  - rewrite (held_set_same ts i t t' Hi Hheld). exact (si_reach _ _ _ _ Hinv).
  - apply (distinct_holders_same ts i t t' Hi); [|left; exact Hheld].
    exact (si_distinct _ _ _ _ Hinv).
  - rewrite Hmx'. discriminate.
  - intros _. exists i, t'. split.
    { apply list_lookup_insert_eq. eapply lookup_lt_Some; eauto. }
    split; [exact Hin'|]. split; [exact (Hrel Hcr)|].
    intros j tj Hj Hcj.
    destruct (lookup_update ts i j t t' tj Hi Hj) as [[-> ->]|[_ Hj']];
      [reflexivity | eauto].
Qed.

(** The destructor of the guard: the call is over, and the shared state is
    a state of the sequential life of the pool again. *)
Lemma inv_unlock s' :
  in_critical (loc t) = true -> in_critical (loc t') = false ->
  mutex (self s') = false ->
  (crit_rel (loc t) sq s ->
   reachable s0 s' (held_set (<[i := t']> ts)) /\
   distinct_holders (<[i := t']> ts)) ->
  sys_inv_at s0 s' s' (<[i := t']> ts).
Proof.
  intros Hin Hout' Hmx' Hdone.
  destruct (critical_owner Hin) as (Hmx & Hcr & Huniq).
  destruct (Hdone Hcr) as [Hreach Hdist].
  constructor.
  - exact Hreach.
  - exact Hdist.
  - intros _. split; [reflexivity|]. intros j tj Hj.
    destruct (lookup_update ts i j t t' tj Hi Hj) as [[-> ->]|[Hne Hj']];
      [exact Hout'|].
    destruct (in_critical (loc tj)) eqn:Hcj; [|reflexivity].
    exfalso. apply Hne. eapply Huniq; eauto.
  - rewrite Hmx'. discriminate.
Qed.

End Interleaving.

Section Steps.
Variables (malloc : Z -> Z) (m0 : gmap Z Z) (size blocks memoryPool : Z).
Variable s0 : State.
Hypothesis Hcons : constructed malloc m0 size blocks memoryPool s0.

(** Every statement of every thread preserves the invariant. *)
Lemma sys_inv_step st st' :
  sys_inv s0 st -> sys_step st st' -> sys_inv s0 st'.
Proof.
  intros [sq Hinv] Hstep.
  destruct Hstep as [s ts i t t' s' Hi Hstep]. cbn [fst snd] in *.
  pose proof (quiescent_unlocked _ _ _ _ _ _ Hcons _ _ _ Hinv) as Hsq.
  unfold sys_inv. cbn [fst snd].
  destruct t as [l c]. unfold thread_step in Hstep. cbn [loc cycles] in Hstep.
  destruct l as [| | | |fb|fb|fb|x|x|x|x|x h|x h|x].
  - (* Outside *)
    destruct c; [discriminate|]. injection Hstep as <- <-. exists sq.
    eapply inv_move_outside; eauto.
  - (* AllocEnter *)
    destruct (mutex (self s)) eqn:Hmx; [discriminate|].
    injection Hstep as <- <-. exists sq.
    eapply inv_lock; eauto. reflexivity.
  - (* AllocTest *)
    exists sq.
    destruct (Z.eqb_spec (headHeader (self s)) NULL) as [Hz|Hnz];
      injection Hstep as <- <-;
      (eapply inv_inside; eauto; cbn [loc crit_rel]; intros ->; auto).
  - (* AllocThrow *)
    injection Hstep as <- <-. exists (set_mutex false s).
    eapply inv_unlock; eauto. cbn [loc crit_rel]. intros [-> _].
    rewrite (unlock_lock sq Hsq). split.
    + erewrite held_set_same; eauto. exact (si_reach _ _ _ _ Hinv).
    + eapply distinct_holders_same; eauto. exact (si_distinct _ _ _ _ Hinv).
  - (* AllocPop *)
    injection Hstep as <- <-. exists sq.
    eapply inv_inside; eauto. cbn [loc crit_rel]. intros (-> & -> & Hnz).
    auto.
  - (* AllocMark *)
    injection Hstep as <- <-. exists sq.
    eapply inv_inside; eauto. cbn [loc crit_rel]. intros (-> & -> & Hnz).
    auto.
  - (* AllocReturn *)
    injection Hstep as <- <-. exists (set_mutex false s).
    eapply inv_unlock; eauto. cbn [loc crit_rel]. intros (-> & -> & Hnz).
    pose proof (allocate_unfold sq Hsq Hnz) as Hrun.
    pose proof (si_reach _ _ _ _ Hinv) as Hreach.
    destruct (reachable_inv _ _ _ _ _ _ Hcons sq _ Hreach)
      as (fl & Hpool & Hlive & _).
    destruct fl as [|a fl];
      [rewrite (allocate_empty sq [] Hpool eq_refl) in Hrun; discriminate|].
    destruct (allocate_cons sq _ Hpool a fl eq_refl) as (s1 & Hrun1 & _).
    assert (Hx : wrap (headHeader (self sq) + getHeaderSize) = a + sizeof_ptr)
      by congruence.
    rewrite Hx in *. split.
    + erewrite held_set_acquire; eauto.
      exact (reach_allocate s0 sq _ _ _ Hreach Hrun).
    + eapply distinct_holders_update; eauto;
        [exact (si_distinct _ _ _ _ Hinv)|].
      cbn [loc held]. intros y [= <-] j tj Hne Hj Hhj.
      assert (Hin : a + sizeof_ptr ∈ held_set ts)
        by (apply elem_of_held_set; eauto).
      apply Hlive in Hin as [_ Hnot]. apply Hnot.
      replace (a + sizeof_ptr - sizeof_ptr) with a by lia. left.
  - (* Holding *)
    injection Hstep as <- <-. exists sq.
    eapply inv_move_outside; eauto.
  - (* DeallocEnter *)
    destruct (mutex (self s)) eqn:Hmx; [discriminate|].
    injection Hstep as <- <-. exists sq.
    eapply inv_lock; eauto. reflexivity.
  - (* DeallocTest *)
    exists sq.
    destruct (isBlockInUse s x) eqn:Huse; cbn [negb] in Hstep;
      injection Hstep as <- <-;
      (eapply inv_inside; eauto; cbn [loc crit_rel]; intros ->; auto).
  - (* DeallocThrow *)
    injection Hstep as <- <-. exists (set_mutex false s).
    eapply inv_unlock; eauto. cbn [loc crit_rel]. intros [-> _].
    rewrite (unlock_lock sq Hsq). split.
    + erewrite held_set_same; eauto. exact (si_reach _ _ _ _ Hinv).
    + eapply distinct_holders_same; eauto. exact (si_distinct _ _ _ _ Hinv).
  - (* DeallocLink *)
    injection Hstep as <- <-. exists sq.
    eapply inv_inside; eauto. cbn [loc crit_rel]. intros (-> & Huse & ->).
    auto.
  - (* DeallocHead *)
    injection Hstep as <- <-. exists sq.
    eapply inv_inside; eauto. cbn [loc crit_rel]. intros (-> & Huse & ->).
    auto.
  - (* DeallocReturn *)
    injection Hstep as <- <-. exists (set_mutex false s).
    eapply inv_unlock; eauto. cbn [loc crit_rel]. intros (-> & Huse).
    pose proof (deallocate_unfold sq x Hsq Huse) as Hrun.
    pose proof (si_reach _ _ _ _ Hinv) as Hreach.
    assert (Hin : x ∈ held_set ts) by (apply elem_of_held_set; eauto).
    pose proof (live_in_range _ _ _ _ _ _ Hcons sq _ Hreach x Hin) as Hrng.
    split.
    + erewrite held_set_release; eauto.
      * exact (reach_deallocate s0 sq _ x _ _ Hreach Hrng Hrun).
      * intros j tj Hj Hhj.
        exact (si_distinct _ _ _ _ Hinv j i tj _ x Hj Hi Hhj eq_refl).
    + eapply distinct_holders_same; eauto. exact (si_distinct _ _ _ _ Hinv).
Qed.

End Steps.

(** ** Executions *)

Lemma sys_run_rtc sched : forall st st',
  sys_run sched st = Some st' -> rtc sys_step st st'.
Proof.
  induction sched as [|i sched IH]; intros [s ts] st' Hrun; simpl in Hrun.
  - injection Hrun as <-. apply rtc_refl.
  - unfold sys_run_step in Hrun. cbn [fst snd] in Hrun.
    destruct (ts !! i) as [t|] eqn:Hi; [|discriminate].
    destruct (thread_step t s) as [[t' s']|] eqn:Hstep; [|discriminate].
    eapply rtc_l; [|apply IH; exact Hrun].
    exact (sys_step_thread s ts i t t' s' Hi Hstep).
Qed.

Example sample_trace_threads :
  snd sample_trace = [mkThread (DeallocEnter 4104) 1; mkThread AllocTest 1] /\
  mutex (self (fst sample_trace)) = true /\
  sys_run_step 0 sample_trace = None.
Proof. vm_compute. auto. Qed.

Section Concurrent.
Variables (malloc : Z -> Z) (m0 : gmap Z Z) (bsize blocks memoryPool : Z).
Variable s0 : State.
Hypothesis Hcons : constructed malloc m0 bsize blocks memoryPool s0.

Lemma held_set_init N M : held_set (replicate N (mkThread Outside M)) = ∅.
Proof.
  apply set_eq. intros x. rewrite elem_of_held_set. split; [|set_solver].
  intros (i & t & Hi & Hh). apply lookup_replicate_1 in Hi as [-> _].
  discriminate.
Qed.

Lemma sys_inv_init N M : sys_inv s0 (sys_init s0 N M).
Proof.
  exists s0. unfold sys_init. cbn [fst snd].
  destruct (constructed_inv _ _ _ _ _ _ Hcons) as (Hpool & _).
  constructor.
  - rewrite held_set_init. constructor.
  - intros i j ti tj x Hi _ Hh. apply lookup_replicate_1 in Hi as [-> _].
    discriminate.
  - intros _. split; [reflexivity|]. intros i t Hi.
    apply lookup_replicate_1 in Hi as [-> _]. reflexivity.
  - rewrite (inv_unlocked _ _ Hpool). discriminate.
Qed.

Lemma sys_inv_rtc st st' :
  rtc sys_step st st' -> sys_inv s0 st -> sys_inv s0 st'.
Proof.
  induction 1 as [|st st1 st' Hstep _ IH]; intros Hinv; [exact Hinv|].
  apply IH. exact (sys_inv_step _ _ _ _ _ _ Hcons st st1 Hinv Hstep).
Qed.

(** No more blocks are handed out than the pool has. *)
Lemma live_count s live :
  reachable s0 s live -> (size live <= Z.to_nat blocks)%nat.
Proof.
  intros Hreach.
  destruct (reachable_inv _ _ _ _ _ _ Hcons s live Hreach)
    as (fl & Hpool & Hlive & Hsame & _).
  destruct (constructed_inv _ _ _ _ _ _ Hcons) as (Hpool0 & _ & Hmb & _).
  set (all := (fun a => a + sizeof_ptr) <$> fresh_list (self s0)).
  assert (Hsub : live ⊆ list_to_set all).
  { intros x Hx. apply Hlive in Hx as [Hh _].
    apply (same_layout_header _ _ _ (same_layout_sym _ _ Hsame)) in Hh.
    destruct Hh as (k & Hk & Hxk).
    apply elem_of_list_to_set. unfold all, fresh_list.
    apply list_elem_of_fmap. exists (header_at (self s0) k).
    split; [lia|]. apply list_elem_of_fmap. exists k.
    split; [reflexivity|]. apply elem_of_seqZ. lia. }
  apply subseteq_size in Hsub.
  rewrite size_list_to_set in Hsub.
  - unfold all in Hsub. rewrite length_fmap, fresh_list_length, Hmb in Hsub;
      [exact Hsub|].
    pose proof (lay_blocks _ (inv_layout _ _ Hpool0)). lia.
  - unfold all. apply NoDup_fmap_2; [|exact (inv_nodup _ _ Hpool0)].
    intros a1 a2 Heq. lia.
Qed.

End Concurrent.

(** A statement that writes [headHeader] or memory is a statement between
    the construction and the destruction of a guard. *)
Lemma writes_in_critical t s t' s' :
  thread_step t s = Some (t', s') ->
  headHeader (self s') <> headHeader (self s) \/ mem s' <> mem s ->
  in_critical (loc t) = true.
Proof.
  intros Hstep Hw. unfold thread_step in Hstep.
  destruct (loc t); try reflexivity; exfalso.
  - destruct (cycles t); [discriminate|]. injection Hstep as _ <-. tauto.
  - destruct (mutex (self s)); [discriminate|]. injection Hstep as _ <-.
    cbn in Hw. tauto.
  - injection Hstep as _ <-. tauto.
  - destruct (mutex (self s)); [discriminate|]. injection Hstep as _ <-.
    cbn in Hw. tauto.
Qed.

(** C10.  [N] threads each run [M] cycles of [allocate] and [deallocate] on
    one pool, their statements interleaved in any order.  In every state
    such an execution reaches, whatever the capacity of the pool: at most
    one thread is between acquiring and releasing the mutex; a statement
    that writes [headHeader] or a block header is executed by that thread,
    with the mutex held, so that the calls take effect one after the other;
    whenever the mutex is free the shared state is one that the same calls,
    made one after the other, lead to, with the addresses held by the
    threads as the addresses handed out; no address is held by two threads;
    and the number of distinct addresses held is at most [maxBlocks]. *)
Theorem concurrent_use malloc m0 bsize blocks memoryPool s0 (N M : nat) s ts :
  constructed malloc m0 bsize blocks memoryPool s0 ->
  rtc sys_step (sys_init s0 N M) (s, ts) ->
  (forall i j ti tj,
     ts !! i = Some ti -> ts !! j = Some tj ->
     in_critical (loc ti) = true -> in_critical (loc tj) = true -> i = j) /\
  (forall i t t' s',
     ts !! i = Some t -> thread_step t s = Some (t', s') ->
     headHeader (self s') <> headHeader (self s) \/ mem s' <> mem s ->
     in_critical (loc t) = true /\ mutex (self s) = true) /\
  (mutex (self s) = false -> reachable s0 s (held_set ts)) /\
  (forall i j ti tj x,
     ts !! i = Some ti -> ts !! j = Some tj ->
     held (loc ti) = Some x -> held (loc tj) = Some x -> i = j) /\
  (size (held_set ts) <= Z.to_nat (maxBlocks (self s)))%nat.
Proof.
  intros Hcons Hrun.
  destruct (sys_inv_rtc _ _ _ _ _ _ Hcons _ _ Hrun (sys_inv_init _ _ _ _ _ _ Hcons N M))
    as [sq Hinv]. cbn [fst snd] in Hinv.
  pose proof (si_reach _ _ _ _ Hinv) as Hreach.
  split; [|split; [|split; [|split]]].
  - intros i j ti tj Hi Hj Hci Hcj.
    destruct (critical_owner _ _ _ _ _ _ Hinv Hi Hci) as (_ & _ & Huniq).
    symmetry. exact (Huniq j tj Hj Hcj).
  - intros i t t' s' Hi Hstep Hw.
    pose proof (writes_in_critical t s t' s' Hstep Hw) as Hc.
    split; [exact Hc|].
    exact (proj1 (critical_owner _ _ _ _ _ _ Hinv Hi Hc)).
  - intros Hmx. destruct (si_free _ _ _ _ Hinv Hmx) as [-> _]. exact Hreach.
  - exact (si_distinct _ _ _ _ Hinv).
  - pose proof (live_count _ _ _ _ _ _ Hcons sq _ Hreach) as Hcount.
    destruct (constructed_inv _ _ _ _ _ _ Hcons) as (_ & _ & Hmb & _).
    assert (Hsame : maxBlocks (self s) = maxBlocks (self sq)).
    { destruct (mutex (self s)) eqn:Hmx.
      - destruct (si_held _ _ _ _ Hinv Hmx) as (i & t & _ & _ & Hrel & _).
        destruct (loc t); cbn [crit_rel] in Hrel; try contradiction;
          match type of Hrel with
          | _ /\ _ => destruct Hrel as [Hrel _]
          | _ => idtac
          end; rewrite Hrel; reflexivity.
      - destruct (si_free _ _ _ _ Hinv Hmx) as [-> _]. reflexivity. }
    destruct (reachable_inv _ _ _ _ _ _ Hcons sq _ Hreach)
      as (fl & _ & _ & (_ & _ & Hm & _) & _).
    rewrite Hsame, Hm, Hmb. exact Hcount.
Qed.

Lemma concurrent_use_witness :
  (mutex (self (fst sample_trace)) = false ->
   reachable sample_fresh (fst sample_trace) (held_set (snd sample_trace))) /\
  (forall i j ti tj x,
     snd sample_trace !! i = Some ti -> snd sample_trace !! j = Some tj ->
     held (loc ti) = Some x -> held (loc tj) = Some x -> i = j) /\
  (size (held_set (snd sample_trace))
   <= Z.to_nat (maxBlocks (self (fst sample_trace))))%nat.
Proof.
  apply (concurrent_use (fun _ => 4096) ∅ 16 4 NULL sample_fresh 2 1
           (fst sample_trace) (snd sample_trace) sample_fresh_constructed).
  apply (sys_run_rtc [0; 0; 0; 0; 0; 0; 1; 1; 0]%nat).
  vm_compute. reflexivity.
Defined.

(** * The tests of the repository, on the embedding

    [sample_fresh] is the pool of the test group [Deallocation]: four blocks
    of 16 bytes; its first block is at 4104 and its last at 4176. *)

Example test_zeroBlockCreationThrowsInvalidParams :
  BlockAllocator_new (fun _ => 4096) ∅ 1 0 NULL
  = Throw InvalidConstructorParametersException.
Proof. reflexivity. Qed.

Example test_zeroSizeCreationThrowsInvalidParams :
  BlockAllocator_new (fun _ => 4096) ∅ 0 1 NULL
  = Throw InvalidConstructorParametersException.
Proof. reflexivity. Qed.

Example test_tooBigBlocksSizeThrowsInvalidParams :
  BlockAllocator_new (fun _ => 4096) ∅ SIZE_MAX 2 NULL
  = Throw InvalidConstructorParametersException.
Proof. vm_compute. reflexivity. Qed.

Example test_tooBigNumOfBlocksThrowsInvalidParams :
  BlockAllocator_new (fun _ => 4096) ∅ 2 SIZE_MAX NULL
  = Throw InvalidConstructorParametersException.
Proof. vm_compute. reflexivity. Qed.

Example test_requestOverSystemMemoryAvailable :
  BlockAllocator_new (fun _ => NULL) ∅ (SIZE_MAX - 1000) 1 NULL
  = Throw OutOfSystemMemoryException.
Proof. vm_compute. reflexivity. Qed.

Example test_ifAllMemoryWasAllocatedThrow :
  fst (allocate (snd (allocate_n 4 sample_fresh)))
  = Throw OutOfAllocatableMemoryException.
Proof. vm_compute. reflexivity. Qed.

Example test_nullAddressThrows :
  fst (deallocate NULL sample_fresh) = Throw InvalidBlockAddressException.
Proof. vm_compute. reflexivity. Qed.

Example test_invalidAddressesAroundFirstAndLastBlockThrow :
  (fun x => fst (deallocate x (snd (allocate_n 4 sample_fresh))))
    <$> [4104 + 1; 4104 - 1; 4176 - 1; 4176 + 1]
  = replicate 4 (Throw InvalidBlockAddressException).
Proof. vm_compute. reflexivity. Qed.

Example test_blockAddresses :
  isBlockAddress sample_fresh <$> [4104; 4128; 4152; 4176; 4104 + 16 - 1]
  = [true; true; true; true; false].
Proof. vm_compute. reflexivity. Qed.

Example test_validAdressIsABlockAddress :
  isBlockAddress sample_fresh
    (endHeader (self sample_fresh) - getBlockSize sample_fresh) = true.
Proof. vm_compute. reflexivity. Qed.

Example test_blockInUse :
  isBlockInUse sample_fresh 4104 = false /\
  isBlockInUse (snd (allocate sample_fresh)) 4104 = true /\
  isBlockInUse (snd (allocate sample_fresh)) (4104 + 16 + 1) = false.
Proof. vm_compute. auto. Qed.

Example test_validAddressTwiceThrows :
  fst (deallocate 4104 (snd (deallocate 4104 (snd (allocate sample_fresh)))))
  = Throw InvalidBlockAddressException.
Proof. vm_compute. reflexivity. Qed.

Example test_allocationReturnsPreviouslyDeallocatedBlock :
  fst (allocate sample_pool) = Return 4104.
Proof. vm_compute. reflexivity. Qed.

Example test_fillFreeAndGetTheLastBlock :
  fst (allocate (deallocate_all [4104; 4128; 4152; 4176]
                   (snd (allocate_n 4 sample_fresh))))
  = Return 4176.
Proof. vm_compute. reflexivity. Qed.

Example test_fillFreeInReverseAndGetTheFirstBlock :
  fst (allocate (deallocate_all [4176; 4152; 4128; 4104]
                   (snd (allocate_n 4 sample_fresh))))
  = Return 4104.
Proof. vm_compute. reflexivity. Qed.

Example test_canAllocateExternalPool :
  match BlockAllocator_new (fun _ => NULL) ∅ 32 2 8192 with
  | Return s => fst (allocate_n 2 s) = [Return (8192 + 8); Return (8192 + 8 + 40)]
  | _ => False
  end.
Proof. vm_compute. reflexivity. Qed.

(** * Further properties *)

(** ** Bytes of a stored pointer *)

Module MemBytes.
Import Mem.

Lemma read_byte_store_le_in n : forall m a v i,
  0 <= i < Z.of_nat n ->
  read_byte (store_le n m a v) (a + i) = (v / 256 ^ i) `mod` 256.
Proof.
  induction n as [|n IH]; intros m a v i Hi; [lia|].
  cbn [store_le]. destruct (decide (i = 0)) as [->|Hnz].
  - rewrite MemFacts.read_byte_store_le_out by lia.
    replace (a + 0) with a by lia.
    rewrite MemFacts.read_write_byte_same. rewrite Z.pow_0_r, Z.div_1_r.
    reflexivity.
  - replace (a + i) with (a + 1 + (i - 1)) by lia.
    rewrite IH by lia. rewrite Z.div_div by lia.
    replace (256 * 256 ^ (i - 1)) with (256 ^ i); [reflexivity|].
    replace i with (Z.succ (i - 1)) at 1 by lia.
    rewrite Z.pow_succ_r by lia. reflexivity.
Qed.

Lemma load_le_byte n : forall m a i,
  0 <= i < Z.of_nat n ->
  (load_le n m a / 256 ^ i) `mod` 256 = read_byte m (a + i).
Proof.
  induction n as [|n IH]; intros m a i Hi; [lia|].
  cbn [load_le]. pose proof (MemFacts.read_byte_range m a) as Hr.
  destruct (decide (i = 0)) as [->|Hnz].
  - rewrite Z.pow_0_r, Z.div_1_r. replace (a + 0) with a by lia.
    replace (read_byte m a + 256 * load_le n m (a + 1))
      with (read_byte m a + load_le n m (a + 1) * 256) by lia.
    rewrite Z.mod_add by lia.
    apply Z.mod_small. exact Hr.
  - replace (256 ^ i) with (256 * 256 ^ (i - 1)).
    + rewrite <- Z.div_div by lia.
      replace ((read_byte m a + 256 * load_le n m (a + 1)) / 256)
        with (load_le n m (a + 1)).
      * rewrite IH by lia. f_equal. lia.
      * replace (read_byte m a + 256 * load_le n m (a + 1))
          with (read_byte m a + load_le n m (a + 1) * 256) by lia.
        rewrite Z.div_add by lia.
        rewrite (Z.div_small (read_byte m a)) by lia. lia.
    + replace i with (Z.succ (i - 1)) at 2 by lia.
      rewrite Z.pow_succ_r by lia. reflexivity.
Qed.

(** Writing back the pointer that [m] holds at [a] gives the bytes of [m],
    if the memory written to agrees with [m] everywhere else. *)
Lemma read_byte_restore n m m' a :
  (forall p, p < a \/ a + Z.of_nat n <= p -> read_byte m' p = read_byte m p) ->
  forall p, read_byte (store_le n m' a (load_le n m a)) p = read_byte m p.
Proof.
  intros Hout p.
  destruct (Z_lt_le_dec p a) as [Hlt|Hge];
    [rewrite MemFacts.read_byte_store_le_out by lia; apply Hout; lia|].
  destruct (Z_lt_le_dec p (a + Z.of_nat n)) as [Hin|Hhi];
    [|rewrite MemFacts.read_byte_store_le_out by lia; apply Hout; lia].
  replace p with (a + (p - a)) by lia.
  rewrite read_byte_store_le_in by lia. apply load_le_byte. lia.
Qed.

(** A pointer store changes no byte outside the eight it covers. *)
Lemma read_byte_store_ptr_out m a v p :
  p < a \/ a + sizeof_ptr <= p ->
  read_byte (store_ptr m a v) p = read_byte m p.
Proof.
  intros Hp. apply (MemFacts.read_byte_store_le_out 8).
  unfold sizeof_ptr in Hp. lia.
Qed.

(** Loads only look at the bytes. *)
Lemma load_le_ext n : forall m m' a,
  (forall p, read_byte m p = read_byte m' p) -> load_le n m a = load_le n m' a.
Proof.
  induction n as [|n IH]; intros m m' a Heq; [reflexivity|].
  cbn [load_le]. rewrite (Heq a), (IH m m' (a + 1) Heq). reflexivity.
Qed.

End MemBytes.

(** ** Blocks free and blocks handed out *)

Section Counting.
Variables (malloc : Z -> Z) (m0 : gmap Z Z) (bsize blocks memoryPool : Z).
Variable s0 : State.
Hypothesis Hcons : constructed malloc m0 bsize blocks memoryPool s0.

(** Every block is either on the free list or handed out. *)
Lemma reachable_count s live :
  reachable s0 s live ->
  forall fl, pool_inv s fl ->
  (size live + length fl = Z.to_nat blocks)%nat.
Proof.
  induction 1 as [|s live r s' Hreach IH Hrun|s live x r s' Hreach IH Hx Hrun];
    intros fl' Hinv'.
  - destruct (constructed_inv _ _ _ _ _ _ Hcons) as (Hinv0 & _ & Hmb & _).
    rewrite (chain_unique _ _ _ _ (inv_chain _ _ Hinv') (inv_chain _ _ Hinv0)).
    rewrite size_empty, fresh_list_length, Hmb; [reflexivity|].
    pose proof (lay_blocks _ (inv_layout _ _ Hinv0)). lia.
  - destruct (reachable_inv _ _ _ _ _ _ Hcons s live Hreach)
      as (fl & Hinv & Hlive & _).
    specialize (IH fl Hinv). destruct fl as [|a fl].
    + rewrite (allocate_empty s [] Hinv eq_refl) in Hrun.
      injection Hrun as <- <-.
      rewrite (chain_unique _ _ _ _ (inv_chain _ _ Hinv') (inv_chain _ _ Hinv)).
      exact IH.
    + destruct (allocate_cons s _ Hinv a fl eq_refl) as (s1 & Hrun1 & Hinv1 & _).
      rewrite Hrun1 in Hrun. injection Hrun as <- <-.
      rewrite (chain_unique _ _ _ _ (inv_chain _ _ Hinv') (inv_chain _ _ Hinv1)).
      assert (Hnot : a + sizeof_ptr ∉ live).
      { intros Hin. apply Hlive in Hin as [_ Hn]. apply Hn.
        replace (a + sizeof_ptr - sizeof_ptr) with a by lia. left. }
      rewrite size_union by (apply disjoint_singleton_l; exact Hnot).
      rewrite size_singleton. simpl in IH. lia.
  - destruct (reachable_inv _ _ _ _ _ _ Hcons s live Hreach)
      as (fl & Hinv & Hlive & _).
    specialize (IH fl Hinv). destruct (isBlockInUse s x) eqn:Huse.
    + destruct (deallocate_in_use s fl Hinv x Hx Huse)
        as (s1 & Hrun1 & Hinv1 & _).
      rewrite Hrun1 in Hrun. injection Hrun as <- <-.
      rewrite (chain_unique _ _ _ _ (inv_chain _ _ Hinv') (inv_chain _ _ Hinv1)).
      assert (Hin : x ∈ live).
      { apply Hlive. apply (isBlockInUse_iff s fl Hinv x Hx). exact Huse. }
      rewrite size_difference by (apply singleton_subseteq_l; exact Hin).
      rewrite size_singleton.
      assert (size live <> 0)%nat.
      { intros Hz. apply size_empty_inv in Hz.
        exact (not_elem_of_empty x (proj1 (Hz x) Hin)). }
      simpl. lia.
    + rewrite (deallocate_rejected s fl Hinv x Huse) in Hrun.
      injection Hrun as <- <-.
      rewrite (chain_unique _ _ _ _ (inv_chain _ _ Hinv') (inv_chain _ _ Hinv)).
      exact IH.
Qed.

End Counting.

(** X1.  In every state of a pool's life, [allocate] throws exactly when
    [maxBlocks] addresses are handed out; the exception is then
    [OutOfAllocatableMemoryException] and the state is left as it was.
    Otherwise the call returns: it never blocks. *)
Theorem allocate_exhaustion malloc m0 bsize blocks memoryPool s0 s live :
  constructed malloc m0 bsize blocks memoryPool s0 ->
  reachable s0 s live ->
  (fst (allocate s) = Throw OutOfAllocatableMemoryException <->
   size live = Z.to_nat blocks) /\
  (forall e, fst (allocate s) = Throw e ->
     e = OutOfAllocatableMemoryException /\ snd (allocate s) = s) /\
  ((size live < Z.to_nat blocks)%nat ->
   exists x, fst (allocate s) = Return x).
Proof.
  intros Hcons Hreach.
  destruct (reachable_inv _ _ _ _ _ _ Hcons s live Hreach)
    as (fl & Hinv & Hlive & _).
  pose proof (reachable_count _ _ _ _ _ _ Hcons s live Hreach fl Hinv) as Hcount.
  destruct fl as [|a fl].
  - rewrite (allocate_empty s [] Hinv eq_refl). cbn [fst snd].
    simpl in Hcount. split; [|split].
    + split; [intros _; lia | reflexivity].
    + intros e [= <-]. auto.
    + intros Hlt. lia.
  - destruct (allocate_cons s _ Hinv a fl eq_refl) as (s1 & Hrun & _).
    rewrite Hrun. cbn [fst snd]. simpl in Hcount. split; [|split].
    + split; [discriminate | intros Hfull; lia].
    + discriminate.
    + intros _. eauto.
Qed.

Lemma allocate_exhaustion_witness :
  fst (allocate sample_pool) = Throw OutOfAllocatableMemoryException <->
  size ({[4128]} : gset Z) = Z.to_nat 4.
Proof.
  exact (proj1 (allocate_exhaustion (fun _ => 4096) ∅ 16 4 NULL
                  sample_fresh sample_pool {[4128]}
                  sample_fresh_constructed sample_pool_reachable)).
Defined.

(** X2.  In every state of a pool's life, the pool serves exactly as many
    further calls of [allocate] as it has blocks that are not handed out:
    [maxBlocks] minus the number of addresses handed out.  The addresses
    they return are pairwise distinct and none of them was handed out
    before; the call after them throws
    [OutOfAllocatableMemoryException]. *)
Theorem remaining_capacity malloc m0 bsize blocks memoryPool s0 s live :
  constructed malloc m0 bsize blocks memoryPool s0 ->
  reachable s0 s live ->
  exists addrs s',
    allocate_n (Z.to_nat blocks - size live) s = (Return <$> addrs, s') /\
    length addrs = (Z.to_nat blocks - size live)%nat /\
    NoDup addrs /\
    (forall x, x ∈ addrs -> x ∉ live) /\
    allocate s' = (Throw OutOfAllocatableMemoryException, s').
Proof.
  intros Hcons Hreach.
  destruct (reachable_inv _ _ _ _ _ _ Hcons s live Hreach)
    as (fl & Hinv & Hlive & _).
  pose proof (reachable_count _ _ _ _ _ _ Hcons s live Hreach fl Hinv) as Hcount.
  replace (Z.to_nat blocks - size live)%nat with (length fl) by lia.
  destruct (allocate_n_spec (length fl) s fl Hinv ltac:(lia))
    as (s' & Hrun & Hinv' & _).
  rewrite firstn_all in Hrun. rewrite drop_all in Hinv'.
  exists ((fun a => a + sizeof_ptr) <$> fl), s'.
  split; [exact Hrun|]. split; [apply length_fmap|]. split; [|split].
  - apply NoDup_fmap_2; [intros a1 a2 ?; lia | exact (inv_nodup _ _ Hinv)].
  - intros x Hx Hin. apply list_elem_of_fmap in Hx as (a & -> & Ha).
    apply Hlive in Hin as [_ Hnot]. apply Hnot.
    replace (a + sizeof_ptr - sizeof_ptr) with a by lia. exact Ha.
  - apply (allocate_empty s' [] Hinv' eq_refl).
Qed.

Lemma remaining_capacity_witness :
  exists addrs s',
    allocate_n (Z.to_nat 4 - size ({[4128%Z]} : gset Z)) sample_pool
    = (Return <$> addrs, s') /\
    length addrs = (Z.to_nat 4 - size ({[4128%Z]} : gset Z))%nat /\
    NoDup addrs /\
    (forall x, x ∈ addrs -> x ∉ ({[4128]} : gset Z)) /\
    allocate s' = (Throw OutOfAllocatableMemoryException, s').
Proof.
  exact (remaining_capacity (fun _ => 4096) ∅ 16 4 NULL
           sample_fresh sample_pool {[4128]}
           sample_fresh_constructed sample_pool_reachable).
Defined.

(** X3.  [allocate] never hands out an address that is already handed out:
    the address it returns was not in use before the call, is in use after
    it, and the call changes the answer of [isBlockInUse] for no other
    address. *)
Theorem allocate_hands_out_free_block malloc m0 bsize blocks memoryPool s0
    s live x s' :
  constructed malloc m0 bsize blocks memoryPool s0 ->
  reachable s0 s live ->
  allocate s = (Return x, s') ->
  (x ∉ live) /\
  isBlockInUse s x = false /\
  isBlockInUse s' x = true /\
  (forall y, 0 <= y < ADDR_MOD -> y <> x ->
             isBlockInUse s' y = isBlockInUse s y).
Proof.
  intros Hcons Hreach Hrun.
  pose proof (reach_allocate s0 s live _ _ Hreach Hrun) as Hreach'.
  cbn in Hreach'.
  assert (Hx : 0 <= x < ADDR_MOD).
  { apply (live_in_range _ _ _ _ _ _ Hcons s' _ Hreach').
    apply elem_of_union. left. apply elem_of_singleton. reflexivity. }
  assert (Hnot : x ∉ live).
  { destruct (reachable_inv _ _ _ _ _ _ Hcons s live Hreach)
      as (fl & Hinv & Hlive & _).
    destruct fl as [|a fl];
      [rewrite (allocate_empty s [] Hinv eq_refl) in Hrun; discriminate|].
    destruct (allocate_cons s _ Hinv a fl eq_refl) as (s1 & Hrun1 & _).
    rewrite Hrun1 in Hrun. injection Hrun as <- _.
    intros Hin. apply Hlive in Hin as [_ Hn]. apply Hn.
    replace (a + sizeof_ptr - sizeof_ptr) with a by lia. left. }
  split; [exact Hnot|]. split; [|split].
  - destruct (isBlockInUse s x) eqn:Huse; [|reflexivity].
    apply (isBlockInUse_live _ _ _ _ _ _ Hcons s live Hreach x Hx) in Huse.
    contradiction.
  - apply (isBlockInUse_live _ _ _ _ _ _ Hcons s' _ Hreach' x Hx).
    apply elem_of_union. left. apply elem_of_singleton. reflexivity.
  - intros y Hy Hne. apply Bool.eq_iff_eq_true.
    rewrite (isBlockInUse_live _ _ _ _ _ _ Hcons s' _ Hreach' y Hy).
    rewrite (isBlockInUse_live _ _ _ _ _ _ Hcons s live Hreach y Hy).
    rewrite elem_of_union, elem_of_singleton. tauto.
Qed.

Lemma allocate_hands_out_free_block_witness :
  ((4104 : Z) ∉ ({[4128]} : gset Z)) /\
  isBlockInUse sample_pool 4104 = false /\
  isBlockInUse (snd (allocate sample_pool)) 4104 = true /\
  (forall y, 0 <= y < ADDR_MOD -> y <> 4104 ->
     isBlockInUse (snd (allocate sample_pool)) y = isBlockInUse sample_pool y).
Proof.
  apply (allocate_hands_out_free_block (fun _ => 4096) ∅ 16 4 NULL
           sample_fresh sample_pool {[4128]} 4104 (snd (allocate sample_pool))
           sample_fresh_constructed sample_pool_reachable).
  vm_compute. reflexivity.
Defined.

(** X4.  [isBlockInUse] answers [true] exactly for the addresses that are
    handed out.  So it answers [false] for every address on a pool that has
    just been built, and after [deallocate x] has returned it answers
    [false] for [x] and as before for every other address. *)
Theorem isBlockInUse_tracks_handed_out malloc m0 bsize blocks memoryPool s0
    s live x :
  constructed malloc m0 bsize blocks memoryPool s0 ->
  reachable s0 s live ->
  0 <= x < ADDR_MOD ->
  (isBlockInUse s x = true <-> x ∈ live) /\
  isBlockInUse s0 x = false /\
  (forall s', deallocate x s = (Return tt, s') ->
     isBlockInUse s' x = false /\
     forall y, 0 <= y < ADDR_MOD -> y <> x ->
               isBlockInUse s' y = isBlockInUse s y).
Proof.
  intros Hcons Hreach Hx.
  split; [exact (isBlockInUse_live _ _ _ _ _ _ Hcons s live Hreach x Hx)|].
  split.
  - destruct (isBlockInUse s0 x) eqn:Huse; [|reflexivity].
    apply (isBlockInUse_live _ _ _ _ _ _ Hcons s0 ∅ (reach_new s0) x Hx) in Huse.
    exfalso. exact (not_elem_of_empty x Huse).
  - intros s' Hrun.
    pose proof (reach_deallocate s0 s live x _ _ Hreach Hx Hrun) as Hreach'.
    cbn in Hreach'. split.
    + destruct (isBlockInUse s' x) eqn:Huse; [|reflexivity].
      apply (isBlockInUse_live _ _ _ _ _ _ Hcons s' _ Hreach' x Hx) in Huse.
      apply elem_of_difference in Huse as [_ Hn]. exfalso. apply Hn.
      apply elem_of_singleton. reflexivity.
    + intros y Hy Hne. apply Bool.eq_iff_eq_true.
      rewrite (isBlockInUse_live _ _ _ _ _ _ Hcons s' _ Hreach' y Hy).
      rewrite (isBlockInUse_live _ _ _ _ _ _ Hcons s live Hreach y Hy).
      rewrite elem_of_difference, elem_of_singleton. tauto.
Qed.

Lemma isBlockInUse_tracks_handed_out_witness :
  (isBlockInUse sample_pool 4128 = true <-> (4128 : Z) ∈ ({[4128]} : gset Z)) /\
  isBlockInUse sample_fresh 4128 = false.
Proof.
  destruct (isBlockInUse_tracks_handed_out (fun _ => 4096) ∅ 16 4 NULL
              sample_fresh sample_pool {[4128]} 4128
              sample_fresh_constructed sample_pool_reachable
              ltac:(vm_compute; split; [discriminate | reflexivity]))
    as (H1 & H2 & _).
  split; [exact H1 | exact H2].
Defined.

(** ** Where the blocks are *)

(** X5.  The [blockSize] bytes at an address that is handed out lie inside
    the buffer, past its first header; the bytes of two different addresses
    handed out do not overlap; and none of them is a byte of the [next]
    field of any block.  This holds for every block size, sizes below the
    header size included. *)
Theorem handed_out_blocks_are_disjoint malloc m0 bsize blocks memoryPool s0
    s live x :
  constructed malloc m0 bsize blocks memoryPool s0 ->
  reachable s0 s live ->
  x ∈ live ->
  (startHeader (self s) + getHeaderSize <= x /\
   x + getBlockSize s
   <= startHeader (self s) + blockWithHeaderSize (self s) * maxBlocks (self s)
   <= ADDR_MOD) /\
  (forall y, y ∈ live -> y <> x ->
     x + getBlockSize s <= y \/ y + getBlockSize s <= x) /\
  (forall p, x <= p < x + getBlockSize s -> ~ in_header_cell (self s) p).
Proof.
  intros Hcons Hreach Hx.
  destruct (reachable_inv _ _ _ _ _ _ Hcons s live Hreach)
    as (fl & Hinv & Hlive & _).
  pose proof (inv_layout _ _ Hinv) as Hlay.
  pose proof (stride_ge _ Hlay) as Hstride.
  destruct Hlay as [Hbs _ Hstr Hmb Hst _ Hfit _].
  destruct (proj1 (Hlive x) Hx) as [(k & Hk & Hxk) _].
  unfold getBlockSize, getHeaderSize, header_at, nth_header, sizeof_ptr in *.
  set (W := blockWithHeaderSize (self s)) in *.
  assert (Hk0 : 0 <= k * W) by (apply Z.mul_nonneg_nonneg; lia).
  assert (Hk1 : 0 <= (maxBlocks (self s) - 1 - k) * W)
    by (apply Z.mul_nonneg_nonneg; lia).
  split; [lia|]. split.
  - intros y Hy Hne.
    destruct (proj1 (Hlive y) Hy) as [(j & Hj & Hyj) _].
    unfold header_at, nth_header, sizeof_ptr in Hyj. fold W in Hyj.
    destruct (Z.lt_total k j) as [Hlt|[Heq|Hgt]].
    + left. assert (0 <= (j - k - 1) * W) by (apply Z.mul_nonneg_nonneg; lia).
      lia.
    + exfalso. subst j. lia.
    + right. assert (0 <= (k - j - 1) * W) by (apply Z.mul_nonneg_nonneg; lia).
      lia.
  - intros p Hp (h & (j & Hj & Hh) & Hcell).
    unfold header_at, nth_header in Hh. fold W in Hh.
    unfold sizeof_ptr in Hcell.
    destruct (Z_le_gt_dec j k) as [Hle|Hgt].
    + assert (0 <= (k - j) * W) by (apply Z.mul_nonneg_nonneg; lia). lia.
    + assert (0 <= (j - k - 1) * W) by (apply Z.mul_nonneg_nonneg; lia). lia.
Qed.

Lemma handed_out_blocks_are_disjoint_witness :
  (startHeader (self sample_pool) + getHeaderSize <= 4128 /\
   4128 + getBlockSize sample_pool
   <= startHeader (self sample_pool)
      + blockWithHeaderSize (self sample_pool) * maxBlocks (self sample_pool)
   <= ADDR_MOD) /\
  (forall y, y ∈ ({[4128]} : gset Z) -> y <> 4128 ->
     4128 + getBlockSize sample_pool <= y \/ y + getBlockSize sample_pool <= 4128) /\
  (forall p, 4128 <= p < 4128 + getBlockSize sample_pool ->
             ~ in_header_cell (self sample_pool) p).
Proof.
  apply (handed_out_blocks_are_disjoint (fun _ => 4096) ∅ 16 4 NULL
           sample_fresh sample_pool {[4128]} 4128
           sample_fresh_constructed sample_pool_reachable).
  apply elem_of_singleton. reflexivity.
Defined.

(** ** What is written to memory *)

Section LoopBytes.
Variables (start stride blocks : Z).
Hypothesis Hstride : sizeof_ptr + 1 <= stride.
Hypothesis Hstart : 0 <= start.
Hypothesis Hfit : start + stride * blocks <= ADDR_MOD.

(** The loop of [buildBlocksList] writes header bytes only. *)
Lemma buildBlocksList_loop_bytes : forall fuel k m m',
  0 <= k <= blocks - 1 ->
  buildBlocksList_loop fuel stride (last_header start stride blocks)
    (nth_header start stride k) m = Some m' ->
  forall p,
    (forall j, k <= j < blocks - 1 ->
               p < nth_header start stride j \/
               nth_header start stride j + sizeof_ptr <= p) ->
    Mem.read_byte m' p = Mem.read_byte m p.
Proof.
  induction fuel as [|fuel IH]; intros k m m' Hk Hrun p Hp; simpl in Hrun;
    rewrite (nth_header_lt_last start stride blocks Hstride k Hk) in Hrun.
  - destruct (k <? blocks - 1); [discriminate|]. congruence.
  - destruct (Z.ltb_spec k (blocks - 1)) as [Hlt|Hge]; [|congruence].
    rewrite (nth_header_next start stride blocks Hstride Hstart Hfit k)
      in Hrun by lia.
    rewrite (IH (k + 1) _ m' ltac:(lia) Hrun p)
      by (intros j Hj; apply Hp; lia).
    apply MemBytes.read_byte_store_ptr_out. apply Hp. lia.
Qed.

End LoopBytes.

(** The memory of the pool the constructor returns: what the loop of
    [buildBlocksList] made of the memory it found, with [NULL] stored in the
    last header. *)
Lemma BlockAllocator_new_mem malloc m0 size blocks memoryPool s0 :
  BlockAllocator_new malloc m0 size blocks memoryPool = Return s0 ->
  exists m',
    buildBlocksList_loop (Z.to_nat (maxBlocks (self s0)))
      (blockWithHeaderSize (self s0)) (endHeader (self s0))
      (startHeader (self s0)) m0 = Some m' /\
    mem s0 = Mem.store_ptr m' (endHeader (self s0)) NULL.
Proof.
  unfold BlockAllocator_new.
  cbn [blockSize maxBlocks headerSize member_init].
  destruct ((size =? 0) || (blocks =? 0)); [discriminate|].
  destruct (isSizeCorrect _ size blocks); cbn [negb]; [|discriminate].
  unfold buildBlocksList.
  cbn [self mem sys blockWithHeaderSize endHeader startHeader].
  destruct (memoryPool =? NULL).
  - destruct (_ =? NULL); [discriminate|].
    destruct (buildBlocksList_loop _ _ _ _ m0) as [m'|] eqn:Hloop;
      [|discriminate].
    intros [= <-]. exists m'. cbn. auto.
  - destruct (buildBlocksList_loop _ _ _ _ m0) as [m'|] eqn:Hloop;
      [|discriminate].
    intros [= <-]. exists m'. cbn. auto.
Qed.

Section Bytes.
Variables (malloc : Z -> Z) (m0 : gmap Z Z) (bsize blocks memoryPool : Z).
Variable s0 : State.
Hypothesis Hcons : constructed malloc m0 bsize blocks memoryPool s0.

Lemma outside_cell b h p :
  is_header b h -> ~ in_header_cell b p -> p < h \/ h + sizeof_ptr <= p.
Proof.
  intros Hh Hnot. destruct (Z_lt_le_dec p h) as [?|Hge]; [left; assumption|].
  destruct (Z_lt_le_dec p (h + sizeof_ptr)) as [Hlt|?]; [|right; assumption].
  exfalso. apply Hnot. exists h. split; [exact Hh | lia].
Qed.

(** The constructor writes header bytes only. *)
Lemma constructed_bytes p :
  ~ in_header_cell (self s0) p ->
  Mem.read_byte (mem s0) p = Mem.read_byte m0 p.
Proof.
  intros Hp.
  destruct (constructed_inv _ _ _ _ _ _ Hcons) as (Hinv & _).
  pose proof (inv_layout _ _ Hinv) as Hlay.
  destruct (BlockAllocator_new_mem _ _ _ _ _ _ (cons_return _ _ _ _ _ _ Hcons))
    as (m' & Hloop & Hmem).
  assert (Hlast : is_header (self s0) (endHeader (self s0))).
  { exists (maxBlocks (self s0) - 1).
    pose proof (lay_blocks _ Hlay). split; [lia|].
    rewrite (lay_end _ Hlay). unfold header_at, nth_header. lia. }
  rewrite Hmem.
  rewrite MemBytes.read_byte_store_ptr_out
    by (apply (outside_cell (self s0)); assumption).
  rewrite (lay_end _ Hlay) in Hloop.
  apply (buildBlocksList_loop_bytes (startHeader (self s0))
           (blockWithHeaderSize (self s0)) (maxBlocks (self s0))
           (stride_ge _ Hlay)
           ltac:(pose proof (lay_start _ Hlay); lia) (lay_fit _ Hlay)
           (Z.to_nat (maxBlocks (self s0))) 0 m0 m').
  - pose proof (lay_blocks _ Hlay). lia.
  - unfold nth_header, last_header.
    replace (startHeader (self s0) + 0 * blockWithHeaderSize (self s0))
      with (startHeader (self s0)) by lia.
    exact Hloop.
  - intros j Hj. apply (outside_cell (self s0)); [|exact Hp].
    exists j. split; [lia | reflexivity].
Qed.

(** [allocate] and [deallocate] write header bytes only. *)
Lemma reachable_bytes s live :
  reachable s0 s live ->
  forall p, ~ in_header_cell (self s0) p ->
            Mem.read_byte (mem s) p = Mem.read_byte (mem s0) p.
Proof.
  induction 1 as [|s live r s' Hreach IH Hrun|s live x r s' Hreach IH Hx Hrun];
    intros p Hp; [reflexivity| |].
  - destruct (reachable_inv _ _ _ _ _ _ Hcons s live Hreach)
      as (fl & Hinv & _ & Hsame & _).
    destruct fl as [|a fl].
    + rewrite (allocate_empty s [] Hinv eq_refl) in Hrun.
      injection Hrun as _ <-. apply IH. exact Hp.
    + destruct (inv_chain _ _ Hinv) as (Hhead & Hnz & _).
      rewrite <- Hhead in Hnz.
      rewrite (allocate_unfold s (inv_unlocked _ _ Hinv) Hnz) in Hrun.
      injection Hrun as _ <-. cbn [mem set_mutex set_mem]. rewrite Hhead.
      rewrite MemBytes.read_byte_store_ptr_out; [apply IH; exact Hp|].
      apply (outside_cell (self s0)); [|exact Hp].
      apply (same_layout_header _ _ _ (same_layout_sym _ _ Hsame)).
      apply (inv_free _ _ Hinv). left.
  - destruct (reachable_inv _ _ _ _ _ _ Hcons s live Hreach)
      as (fl & Hinv & _ & Hsame & _).
    destruct (isBlockInUse s x) eqn:Huse.
    + rewrite (deallocate_unfold s x (inv_unlocked _ _ Hinv) Huse) in Hrun.
      injection Hrun as _ <-. cbn [mem set_mutex set_mem set_headHeader].
      destruct (proj1 (isBlockInUse_iff s fl Hinv x Hx) Huse) as [Hh _].
      rewrite (derived_header s (inv_layout _ _ Hinv) x Hx)
        by (apply (isBlockAddress_iff s (inv_layout _ _ Hinv) x Hx); exact Hh).
      rewrite MemBytes.read_byte_store_ptr_out; [apply IH; exact Hp|].
      apply (outside_cell (self s0)); [|exact Hp].
      apply (same_layout_header _ _ _ (same_layout_sym _ _ Hsame)). exact Hh.
    + rewrite (deallocate_rejected s fl Hinv x Huse) in Hrun.
      injection Hrun as _ <-. apply IH. exact Hp.
Qed.

End Bytes.

(** X6.  The constructor, [allocate] and [deallocate] write nothing but the
    [next] fields of the blocks: in every state of a pool's life, every
    byte that is not one of the eight bytes of a block's header is as it was
    when the constructor was called.  The headers lie inside the buffer, so
    no call writes a byte outside the buffer, and no call writes a byte of
    a block's payload. *)
Theorem only_headers_are_written malloc m0 bsize blocks memoryPool s0 s live :
  constructed malloc m0 bsize blocks memoryPool s0 ->
  reachable s0 s live ->
  (forall p, ~ in_header_cell (self s) p ->
             Mem.read_byte (mem s) p = Mem.read_byte m0 p) /\
  (forall p, in_header_cell (self s) p -> in_buffer (self s) p) /\
  (forall p, ~ in_buffer (self s) p ->
             Mem.read_byte (mem s) p = Mem.read_byte m0 p).
Proof.
  intros Hcons Hreach.
  destruct (reachable_inv _ _ _ _ _ _ Hcons s live Hreach)
    as (fl & Hinv & _ & Hsame & _).
  pose proof (inv_layout _ _ Hinv) as Hlay.
  assert (Hs0 : forall p, in_header_cell (self s0) p -> in_header_cell (self s) p).
  { intros p (h & Hh & Hp). exists h. split; [|exact Hp].
    exact (same_layout_header _ _ _ Hsame Hh). }
  assert (Hframe : forall p, ~ in_header_cell (self s) p ->
            Mem.read_byte (mem s) p = Mem.read_byte m0 p).
  { intros p Hp.
    rewrite (reachable_bytes _ _ _ _ _ _ Hcons s live Hreach p)
      by (intros Hc; apply Hp, Hs0, Hc).
    apply (constructed_bytes _ _ _ _ _ _ Hcons).
    intros Hc. apply Hp, Hs0, Hc. }
  assert (Hin : forall p, in_header_cell (self s) p -> in_buffer (self s) p).
  { intros p (h & Hh & Hp).
    destruct (header_bounds _ Hlay h Hh) as [[Hlo _] _].
    destruct Hh as (k & Hk & ->).
    pose proof (stride_ge _ Hlay) as Hstr.
    unfold in_buffer, header_at, nth_header, sizeof_ptr in *.
    assert (0 <= (maxBlocks (self s) - 1 - k) * blockWithHeaderSize (self s))
      by (apply Z.mul_nonneg_nonneg; lia).
    lia. }
  split; [exact Hframe|]. split; [exact Hin|].
  intros p Hp. apply Hframe. intros Hc. apply Hp, Hin, Hc.
Qed.

Lemma only_headers_are_written_witness :
  (forall p, ~ in_header_cell (self sample_pool) p ->
             Mem.read_byte (mem sample_pool) p = Mem.read_byte ∅ p) /\
  (forall p, in_header_cell (self sample_pool) p ->
             in_buffer (self sample_pool) p) /\
  (forall p, ~ in_buffer (self sample_pool) p ->
             Mem.read_byte (mem sample_pool) p = Mem.read_byte ∅ p).
Proof.
  exact (only_headers_are_written (fun _ => 4096) ∅ 16 4 NULL
           sample_fresh sample_pool {[4128]}
           sample_fresh_constructed sample_pool_reachable).
Defined.

(** ** Round trips *)

Lemma BlockAllocator_ext b b' :
  blockSize b = blockSize b' -> headerSize b = headerSize b' ->
  maxBlocks b = maxBlocks b' -> startHeader b = startHeader b' ->
  endHeader b = endHeader b' -> headHeader b = headHeader b' ->
  mutex b = mutex b' -> poolType b = poolType b' ->
  blockInUseFlag b = blockInUseFlag b' ->
  blockWithHeaderSize b = blockWithHeaderSize b' -> b = b'.
Proof.
  destruct b, b'. cbn. intros. subst. reflexivity.
Qed.

Lemma same_fields s h :
  headHeader (self s) = h -> mutex (self s) = false ->
  self (set_mutex false (set_headHeader h s)) = self s.
Proof.
  destruct s as [[] m sy]. cbn. intros -> ->. reflexivity.
Qed.

(** X7.  [allocate] followed by [deallocate] of the address it returned
    leaves the pool as it was before the two calls: [deallocate] returns,
    and afterwards the fields of the object (the head of the free list
    among them), the provider log and every byte of memory are what they
    were. *)
Theorem allocate_deallocate_restores malloc m0 bsize blocks memoryPool s0
    s live x s1 :
  constructed malloc m0 bsize blocks memoryPool s0 ->
  reachable s0 s live ->
  allocate s = (Return x, s1) ->
  exists s2, deallocate x s1 = (Return tt, s2) /\ same_state s2 s.
Proof.
  intros Hcons Hreach Hrun.
  pose proof (reach_allocate s0 s live _ _ Hreach Hrun) as Hreach1.
  cbn in Hreach1.
  destruct (reachable_inv _ _ _ _ _ _ Hcons s live Hreach) as (fl & Hinv & _).
  destruct (reachable_inv _ _ _ _ _ _ Hcons s1 _ Hreach1) as (fl1 & Hinv1 & _).
  pose proof (inv_layout _ _ Hinv) as Hlay.
  destruct fl as [|a fl];
    [rewrite (allocate_empty s [] Hinv eq_refl) in Hrun; discriminate|].
  destruct (inv_chain _ _ Hinv) as (Hhead & Hnz & _).
  assert (Ha : is_header (self s) a) by (apply (inv_free _ _ Hinv); left).
  destruct (header_word _ Hlay a Ha) as [Ha1 Ha2].
  rewrite (allocate_unfold s (inv_unlocked _ _ Hinv)
             ltac:(rewrite Hhead; exact Hnz)) in Hrun.
  rewrite Hhead in Hrun. unfold getHeaderSize in Hrun.
  rewrite (wrap_small (a + sizeof_ptr)) in Hrun
    by (unfold sizeof_ptr in *; lia).
  injection Hrun as <- <-.
  assert (Hx : 0 <= a + sizeof_ptr < ADDR_MOD) by (unfold sizeof_ptr in *; lia).
  match type of Hinv1 with pool_inv ?st _ => set (s1 := st) in * end.
  assert (Huse : isBlockInUse s1 (a + sizeof_ptr) = true).
  { apply (isBlockInUse_live _ _ _ _ _ _ Hcons s1 _ Hreach1 _ Hx).
    apply elem_of_union. left. apply elem_of_singleton. reflexivity. }
  rewrite (deallocate_unfold s1 _ (inv_unlocked _ _ Hinv1) Huse).
  eexists. split; [reflexivity|].
  assert (Hd : wrap (a + sizeof_ptr - headerSize (self s)) = a).
  { rewrite (lay_header _ Hlay).
    replace (a + sizeof_ptr - sizeof_ptr) with a by lia.
    apply wrap_small. unfold sizeof_ptr in *. lia. }
  subst s1. cbn [self mem sys set_mutex set_mem set_headHeader headerSize
                 headHeader blockSize maxBlocks startHeader endHeader mutex
                 poolType blockInUseFlag blockWithHeaderSize].
  rewrite Hd. split; [|split; [reflexivity|]].
  - rewrite <- (same_fields s a Hhead (inv_unlocked _ _ Hinv)). reflexivity.
  - intros p. apply (MemBytes.read_byte_restore 8).
    intros q Hq. apply MemBytes.read_byte_store_ptr_out.
    unfold sizeof_ptr. lia.
Qed.

Lemma allocate_deallocate_restores_witness :
  exists s2,
    deallocate 4104 (snd (allocate sample_pool)) = (Return tt, s2) /\
    same_state s2 sample_pool.
Proof.
  apply (allocate_deallocate_restores (fun _ => 4096) ∅ 16 4 NULL
           sample_fresh sample_pool {[4128]} 4104 (snd (allocate sample_pool))
           sample_fresh_constructed sample_pool_reachable).
  vm_compute. reflexivity.
Defined.

(** X8.  [deallocate] of an address that is handed out, followed by
    [allocate], leaves the pool as it was before the two calls: both
    return, [allocate] returns the same address, and afterwards the fields
    of the object, the provider log and every byte of memory are what they
    were. *)
Theorem deallocate_allocate_restores malloc m0 bsize blocks memoryPool s0
    s live x :
  constructed malloc m0 bsize blocks memoryPool s0 ->
  reachable s0 s live ->
  x ∈ live ->
  exists s1 s2,
    deallocate x s = (Return tt, s1) /\
    allocate s1 = (Return x, s2) /\
    same_state s2 s.
Proof.
  intros Hcons Hreach Hin.
  pose proof (live_in_range _ _ _ _ _ _ Hcons s live Hreach x Hin) as Hx.
  destruct (reachable_inv _ _ _ _ _ _ Hcons s live Hreach)
    as (fl & Hinv & Hlive & _).
  pose proof (inv_layout _ _ Hinv) as Hlay.
  pose proof (head_range s fl Hinv) as Hhd.
  destruct (proj1 (Hlive x) Hin) as [Hh Hnot].
  destruct (header_word _ Hlay _ Hh) as [Hh1 Hh2].
  assert (Huse : isBlockInUse s x = true)
    by (apply (isBlockInUse_iff s fl Hinv x Hx); auto).
  assert (Hd : wrap (x - headerSize (self s)) = x - sizeof_ptr).
  { apply (derived_header s Hlay x Hx).
    apply (isBlockAddress_iff s Hlay x Hx). exact Hh. }
  rewrite (deallocate_unfold s x (inv_unlocked _ _ Hinv) Huse). rewrite Hd.
  eexists. eexists. split; [reflexivity|].
  rewrite allocate_unfold;
    [|reflexivity | cbn; unfold NULL; lia].
  cbn [self mem sys set_mutex set_mem set_headHeader headerSize
       headHeader blockSize maxBlocks startHeader endHeader mutex
       poolType blockInUseFlag blockWithHeaderSize].
  unfold getHeaderSize.
  replace (wrap (x - sizeof_ptr + sizeof_ptr)) with x
    by (replace (x - sizeof_ptr + sizeof_ptr) with x by lia;
        symmetry; apply wrap_small; exact Hx).
  split; [reflexivity|].
  rewrite MemFacts.load_store_ptr_same by exact Hhd.
  split; [|split; [reflexivity|]].
  - apply BlockAllocator_ext; cbn; try reflexivity.
    symmetry. exact (inv_unlocked _ _ Hinv).
  - intros p. cbn [mem set_mutex set_mem set_headHeader].
    rewrite <- (inv_used _ _ Hinv _ Hh Hnot).
    apply (MemBytes.read_byte_restore 8).
    intros q Hq. apply MemBytes.read_byte_store_ptr_out.
    unfold sizeof_ptr in *. lia.
Qed.

Lemma deallocate_allocate_restores_witness :
  exists s1 s2,
    deallocate 4128 sample_pool = (Return tt, s1) /\
    allocate s1 = (Return 4128, s2) /\
    same_state s2 sample_pool.
Proof.
  apply (deallocate_allocate_restores (fun _ => 4096) ∅ 16 4 NULL
           sample_fresh sample_pool {[4128]} 4128
           sample_fresh_constructed sample_pool_reachable).
  apply elem_of_singleton. reflexivity.
Defined.

(** ** Last in, first out *)

Lemma deallocate_all_spec : forall xs s fl,
  pool_inv s fl -> NoDup xs ->
  (forall x, x ∈ xs ->
     0 <= x < ADDR_MOD /\ is_header (self s) (x - sizeof_ptr) /\
     (x - sizeof_ptr) ∉ fl) ->
  pool_inv (deallocate_all xs s)
    (reverse ((fun x => x - sizeof_ptr) <$> xs) ++ fl).
Proof.
  induction xs as [|x xs IH]; intros s fl Hinv Hnd Hxs; [exact Hinv|].
  apply NoDup_cons in Hnd as [Hnotin Hnd].
  destruct (Hxs x ltac:(left)) as (Hx & Hh & Hnot).
  assert (Huse : isBlockInUse s x = true)
    by (apply (isBlockInUse_iff s fl Hinv x Hx); auto).
  destruct (deallocate_in_use s fl Hinv x Hx Huse)
    as (s1 & Hrun & Hinv1 & _ & Hsame & _).
  cbn [deallocate_all]. rewrite Hrun. cbn [snd].
  rewrite fmap_cons, reverse_cons, <- app_assoc. cbn [app].
  apply IH; [exact Hinv1 | exact Hnd|].
  intros y Hy. destruct (Hxs y ltac:(right; exact Hy)) as (Hy1 & Hy2 & Hy3).
  split; [exact Hy1|]. split; [exact (same_layout_header _ _ _ Hsame Hy2)|].
  intros Hin. apply elem_of_cons in Hin as [Heq|Hin]; [|contradiction].
  apply Hnotin. replace x with y by lia. exact Hy.
Qed.

(** X9.  The free list is a stack: when addresses that are handed out are
    given back by successive calls of [deallocate], the calls of [allocate]
    that follow return them in the reverse order, the one freed last
    first. *)
Theorem freed_blocks_come_back_in_reverse malloc m0 bsize blocks memoryPool
    s0 s live (xs : list Z) :
  constructed malloc m0 bsize blocks memoryPool s0 ->
  reachable s0 s live ->
  NoDup xs ->
  (forall x, x ∈ xs -> x ∈ live) ->
  exists s',
    allocate_n (length xs) (deallocate_all xs s)
    = (Return <$> reverse xs, s').
Proof.
  intros Hcons Hreach Hnd Hxs.
  destruct (reachable_inv _ _ _ _ _ _ Hcons s live Hreach)
    as (fl & Hinv & Hlive & _).
  assert (Hall : forall x, x ∈ xs ->
            0 <= x < ADDR_MOD /\ is_header (self s) (x - sizeof_ptr) /\
            (x - sizeof_ptr) ∉ fl).
  { intros x Hx. specialize (Hxs x Hx).
    split; [exact (live_in_range _ _ _ _ _ _ Hcons s live Hreach x Hxs)|].
    exact (proj1 (Hlive x) Hxs). }
  pose proof (deallocate_all_spec xs s fl Hinv Hnd Hall) as Hinv'.
  destruct (allocate_n_spec (length xs) _ _ Hinv') as (s' & Hrun & _).
  { rewrite length_app, length_reverse, length_fmap. lia. }
  exists s'. rewrite Hrun. f_equal. f_equal.
  rewrite take_app_length' by (rewrite length_reverse, length_fmap; reflexivity).
  rewrite fmap_reverse, <- list_fmap_compose. f_equal.
  rewrite <- (list_fmap_id xs) at 2. apply list_fmap_ext.
  intros _ x _. cbn. lia.
Qed.

Lemma freed_blocks_come_back_in_reverse_witness :
  exists s',
    allocate_n 2 (deallocate_all [4128; 4104]
                    (snd (allocate sample_pool)))
    = (Return <$> [4104; 4128], s').
Proof.
  apply (freed_blocks_come_back_in_reverse (fun _ => 4096) ∅ 16 4 NULL
           sample_fresh (snd (allocate sample_pool))
           ({[4104]} ∪ {[4128]}) [4128; 4104] sample_fresh_constructed).
  - apply (reach_allocate sample_fresh sample_pool {[4128]} (Return 4104)
             (snd (allocate sample_pool)) sample_pool_reachable).
    vm_compute. reflexivity.
  - apply NoDup_cons. split; [|apply NoDup_singleton].
    intros Hin. apply list_elem_of_singleton in Hin. discriminate.
  - intros x Hx. apply elem_of_cons in Hx as [->|Hx].
    + apply elem_of_union. right. apply elem_of_singleton. reflexivity.
    + apply list_elem_of_singleton in Hx as ->.
      apply elem_of_union. left. apply elem_of_singleton. reflexivity.
Defined.

(** ** Failures of the constructor *)

(** X10.  For a block size and a block count in the range of [size_t], the
    constructor throws [OutOfSystemMemoryException] exactly when the request
    passes the size check, no buffer was passed, and the provider answers
    [NULL] to the request for [(blockSize + headerSize) * maxBlocks] bytes.
    With a buffer of the caller's the constructor never throws it, and it
    never throws anything but this exception and
    [InvalidConstructorParametersException]. *)
Theorem constructor_out_of_system_memory malloc m0 size blocks memoryPool :
  0 <= size <= SIZE_MAX -> 0 <= blocks <= SIZE_MAX ->
  (BlockAllocator_new malloc m0 size blocks memoryPool
   = Throw OutOfSystemMemoryException <->
   accepted size blocks /\ memoryPool = NULL /\
   malloc ((size + getHeaderSize) * blocks) = NULL) /\
  (forall e, BlockAllocator_new malloc m0 size blocks memoryPool = Throw e ->
     e = InvalidConstructorParametersException \/
     e = OutOfSystemMemoryException).
Proof.
  intros Hs Hb. unfold getHeaderSize.
  destruct (decide (accepted size blocks)) as [Hacc|Hrej].
  - destruct (accepted_wraps size blocks Hacc) as (Hw1 & Hw2 & _).
    destruct (accepted_passes_checks size blocks Hacc) as [Hc1 Hc2].
    unfold BlockAllocator_new.
    cbn [blockSize maxBlocks headerSize member_init].
    rewrite Hc1, Hc2, Hw1, Hw2. cbn [negb].
    destruct (Z.eqb_spec memoryPool NULL) as [Hnull|Hext].
    + destruct (Z.eqb_spec (malloc ((size + sizeof_ptr) * blocks)) NULL)
        as [Hfail|Hok].
      * split; [tauto|]. intros e [= <-]. auto.
      * split; [|destruct (buildBlocksList _ _); discriminate].
        split; [destruct (buildBlocksList _ _); discriminate | tauto].
    + split; [|destruct (buildBlocksList _ _); discriminate].
      split; [destruct (buildBlocksList _ _); discriminate | tauto].
  - assert (Hthrow : BlockAllocator_new malloc m0 size blocks memoryPool
                     = Throw InvalidConstructorParametersException).
    { apply BlockAllocator_new_checks.
      destruct ((size =? 0) || (blocks =? 0)) eqn:Hz; [auto|].
      right. apply orb_false_elim in Hz as [Hz1 Hz2].
      apply Z.eqb_neq in Hz1, Hz2.
      destruct (isSizeCorrect _ size blocks) eqn:Hok; [|reflexivity].
      exfalso. apply Hrej.
      apply isSizeCorrect_iff in Hok; [|reflexivity|lia|lia].
      unfold accepted. lia. }
    rewrite Hthrow. split.
    + split; [discriminate | tauto].
    + intros e [= <-]. auto.
Qed.

Lemma constructor_out_of_system_memory_witness :
  BlockAllocator_new (fun _ => NULL) ∅ (SIZE_MAX - 1000) 1 NULL
  = Throw OutOfSystemMemoryException <->
  accepted (SIZE_MAX - 1000) 1 /\ NULL = NULL /\
  (fun _ : Z => NULL) ((SIZE_MAX - 1000 + getHeaderSize) * 1) = NULL.
Proof.
  apply (constructor_out_of_system_memory (fun _ => NULL) ∅
           (SIZE_MAX - 1000) 1 NULL);
    vm_compute; split; discriminate.
Defined.

(** ** Messages *)

(** X11.  The four exceptions carry four different messages, none of them
    empty: what [what] returns tells which of them was thrown. *)
Theorem what_tells_the_exception (e1 e2 : Exception) :
  (what e1 = what e2 <-> e1 = e2) /\ what e1 <> EmptyString.
Proof.
  split; [split|].
  - destruct e1, e2; intros H; try reflexivity; discriminate H.
  - intros ->. reflexivity.
  - destruct e1; discriminate.
Qed.

(** ** Threads: progress and what the calls answer *)

(** Inside a guard every statement can be executed. *)
Lemma critical_can_step t s :
  in_critical (loc t) = true -> exists r, thread_step t s = Some r.
Proof.
  unfold thread_step. destruct (loc t); try discriminate; intros _; eauto.
  - destruct (headHeader (self s) =? NULL); eauto.
  - destruct (negb (isBlockInUse s _)); eauto.
Qed.

(** Outside the guards a thread that has not finished can execute its next
    statement whenever the mutex is free. *)
Lemma outside_can_step t s :
  in_critical (loc t) = false -> mutex (self s) = false -> ~ finished t ->
  exists r, thread_step t s = Some r.
Proof.
  unfold thread_step, finished. intros Hout Hmx Hnot.
  destruct (loc t); try discriminate; rewrite ?Hmx; eauto.
  destruct (cycles t); [exfalso; apply Hnot; auto | eauto].
Qed.

(** X12.  No deadlock: in every state that [N] threads running [M] cycles
    each can reach, if some thread has not finished then some thread can
    execute its next statement.  A call that throws releases the mutex like
    one that returns, so no thread waits for a mutex that is never
    released. *)
Theorem threads_never_deadlock malloc m0 bsize blocks memoryPool s0
    (N M : nat) s ts :
  constructed malloc m0 bsize blocks memoryPool s0 ->
  rtc sys_step (sys_init s0 N M) (s, ts) ->
  (exists i t, ts !! i = Some t /\ ~ finished t) ->
  exists st', sys_step (s, ts) st'.
Proof.
  intros Hcons Hrun (i & t & Hi & Hnot).
  destruct (sys_inv_rtc _ _ _ _ _ _ Hcons _ _ Hrun
              (sys_inv_init _ _ _ _ _ _ Hcons N M)) as [sq Hinv].
  cbn [fst snd] in Hinv.
  destruct (mutex (self s)) eqn:Hmx.
  - destruct (si_held _ _ _ _ Hinv Hmx) as (i0 & t0 & Hi0 & Hc0 & _).
    destruct (critical_can_step t0 s Hc0) as [[t' s'] Hstep].
    eexists. exact (sys_step_thread s ts i0 t0 t' s' Hi0 Hstep).
  - destruct (si_free _ _ _ _ Hinv Hmx) as [_ Hout].
    destruct (outside_can_step t s (Hout i t Hi) Hmx Hnot) as [[t' s'] Hstep].
    eexists. exact (sys_step_thread s ts i t t' s' Hi Hstep).
Qed.

Lemma threads_never_deadlock_witness :
  exists st', sys_step (fst sample_trace, snd sample_trace) st'.
Proof.
  apply (threads_never_deadlock (fun _ => 4096) ∅ 16 4 NULL sample_fresh 2 1
           (fst sample_trace) (snd sample_trace) sample_fresh_constructed).
  - apply (sys_run_rtc [0; 0; 0; 0; 0; 0; 1; 1; 0]%nat).
    vm_compute. reflexivity.
  - exists 1%nat, (mkThread AllocTest 1). split; [vm_compute; reflexivity|].
    intros [Hloc _]. discriminate Hloc.
Defined.

(** X13.  Nothing is lost: in a state in which every thread has finished,
    the mutex is free, no address is held, the shared state is a state of
    the sequential life of the pool with no address handed out, and the pool
    serves [maxBlocks] calls of [allocate] again. *)
Theorem finished_threads_leave_a_full_pool malloc m0 bsize blocks memoryPool
    s0 (N M : nat) s ts :
  constructed malloc m0 bsize blocks memoryPool s0 ->
  rtc sys_step (sys_init s0 N M) (s, ts) ->
  (forall i t, ts !! i = Some t -> finished t) ->
  mutex (self s) = false /\
  held_set ts = ∅ /\
  reachable s0 s ∅ /\
  exists addrs s',
    allocate_n (Z.to_nat blocks) s = (Return <$> addrs, s') /\
    length addrs = Z.to_nat blocks.
Proof.
  intros Hcons Hrun Hfin.
  destruct (sys_inv_rtc _ _ _ _ _ _ Hcons _ _ Hrun
              (sys_inv_init _ _ _ _ _ _ Hcons N M)) as [sq Hinv].
  cbn [fst snd] in Hinv.
  assert (Hmx : mutex (self s) = false).
  { destruct (mutex (self s)) eqn:Hmx; [|reflexivity].
    destruct (si_held _ _ _ _ Hinv Hmx) as (i & t & Hi & Hc & _).
    destruct (Hfin i t Hi) as [Hloc _]. rewrite Hloc in Hc. discriminate. }
  assert (Hheld : held_set ts = ∅).
  { apply set_eq. intros x. rewrite elem_of_held_set.
    split; [|intros Hx; exfalso; exact (not_elem_of_empty x Hx)].
    intros (i & t & Hi & Hh). destruct (Hfin i t Hi) as [Hloc _].
    rewrite Hloc in Hh. discriminate. }
  destruct (si_free _ _ _ _ Hinv Hmx) as [-> _].
  pose proof (si_reach _ _ _ _ Hinv) as Hreach. rewrite Hheld in Hreach.
  split; [exact Hmx|]. split; [exact Hheld|]. split; [exact Hreach|].
  destruct (reachable_inv _ _ _ _ _ _ Hcons sq ∅ Hreach) as (fl & Hpool & _).
  pose proof (reachable_count _ _ _ _ _ _ Hcons sq ∅ Hreach fl Hpool) as Hcount.
  rewrite size_empty in Hcount. cbn in Hcount.
  destruct (allocate_n_spec (Z.to_nat blocks) sq fl Hpool ltac:(lia))
    as (s' & Hseq & _).
  eexists. exists s'. split; [exact Hseq|].
  rewrite length_fmap, length_take. lia.
Qed.

Lemma finished_threads_leave_a_full_pool_witness :
  mutex (self (fst sample_done)) = false /\
  held_set (snd sample_done) = ∅ /\
  reachable sample_fresh (fst sample_done) ∅ /\
  exists addrs s',
    allocate_n (Z.to_nat 4) (fst sample_done) = (Return <$> addrs, s') /\
    length addrs = Z.to_nat 4.
Proof.
  apply (finished_threads_leave_a_full_pool (fun _ => 4096) ∅ 16 4 NULL
           sample_fresh 1 1 (fst sample_done) (snd sample_done)
           sample_fresh_constructed).
  - apply (sys_run_rtc (replicate 12 0%nat)). vm_compute. reflexivity.
  - intros i t Hi.
    change (snd sample_done) with [mkThread Outside 0] in Hi.
    apply list_lookup_singleton_Some in Hi as [_ <-]. split; reflexivity.
Defined.

(** X14.  With every thread giving back only what it holds, [deallocate]
    never throws, and [allocate] throws only while every block of the pool
    is held by some thread. *)
Theorem concurrent_calls_throw_only_when_full malloc m0 bsize blocks
    memoryPool s0 (N M : nat) s ts i t :
  constructed malloc m0 bsize blocks memoryPool s0 ->
  rtc sys_step (sys_init s0 N M) (s, ts) ->
  ts !! i = Some t ->
  (forall x, loc t <> DeallocThrow x) /\
  (loc t = AllocThrow -> size (held_set ts) = Z.to_nat blocks).
Proof.
  intros Hcons Hrun Hi.
  destruct (sys_inv_rtc _ _ _ _ _ _ Hcons _ _ Hrun
              (sys_inv_init _ _ _ _ _ _ Hcons N M)) as [sq Hinv].
  cbn [fst snd] in Hinv.
  pose proof (si_reach _ _ _ _ Hinv) as Hreach.
  split.
  - intros x Hloc.
    destruct (critical_owner _ _ _ _ _ _ Hinv Hi) as (_ & Hrel & _);
      [rewrite Hloc; reflexivity|].
    rewrite Hloc in Hrel. destruct Hrel as [_ Hfree].
    assert (Hin : x ∈ held_set ts).
    { apply elem_of_held_set. exists i, t. rewrite Hloc. auto. }
    pose proof (live_in_range _ _ _ _ _ _ Hcons sq _ Hreach x Hin) as Hx.
    apply (isBlockInUse_live _ _ _ _ _ _ Hcons sq _ Hreach x Hx) in Hin.
    congruence.
  - intros Hloc.
    destruct (critical_owner _ _ _ _ _ _ Hinv Hi) as (_ & Hrel & _);
      [rewrite Hloc; reflexivity|].
    rewrite Hloc in Hrel. destruct Hrel as [_ Hnull].
    destruct (reachable_inv _ _ _ _ _ _ Hcons sq _ Hreach) as (fl & Hpool & _).
    pose proof (reachable_count _ _ _ _ _ _ Hcons sq _ Hreach fl Hpool) as Hcount.
    destruct fl as [|a fl]; [simpl in Hcount; lia|].
    destruct (inv_chain _ _ Hpool) as (Hhead & Hnz & _). congruence.
Qed.

Lemma concurrent_calls_throw_only_when_full_witness :
  (forall x, loc (mkThread AllocTest 1) <> DeallocThrow x) /\
  (loc (mkThread AllocTest 1) = AllocThrow ->
   size (held_set (snd sample_trace)) = Z.to_nat 4).
Proof.
  apply (concurrent_calls_throw_only_when_full (fun _ => 4096) ∅ 16 4 NULL
           sample_fresh 2 1 (fst sample_trace) (snd sample_trace) 1%nat
           (mkThread AllocTest 1) sample_fresh_constructed).
  - apply (sys_run_rtc [0; 0; 0; 0; 0; 0; 1; 1; 0]%nat).
    vm_compute. reflexivity.
  - vm_compute. reflexivity.
Defined.

(** ** Stores by the user *)

Module MemWrites.
Import Mem.

Lemma store_le_write_byte n : forall m a w p v,
  p < a \/ a + Z.of_nat n <= p ->
  store_le n (write_byte m p v) a w = write_byte (store_le n m a w) p v.
Proof.
  induction n as [|n IH]; intros m a w p v Hp; [reflexivity|].
  cbn [store_le].
  replace (write_byte (write_byte m p v) a w)
    with (write_byte (write_byte m a w) p v)
    by (unfold write_byte; apply insert_insert_ne; lia).
  apply IH. lia.
Qed.

Lemma load_le_write_byte n : forall m a p v,
  p < a \/ a + Z.of_nat n <= p ->
  load_le n (write_byte m p v) a = load_le n m a.
Proof.
  induction n as [|n IH]; intros m a p v Hp; [reflexivity|].
  cbn [load_le].
  rewrite MemFacts.read_write_byte_other by lia.
  rewrite IH by lia. reflexivity.
Qed.

Lemma store_ptr_write_bytes ws m a w :
  Forall (fun u => fst u < a \/ a + sizeof_ptr <= fst u) ws ->
  store_ptr (write_bytes ws m) a w = write_bytes ws (store_ptr m a w).
Proof.
  induction 1 as [|u ws Hu _ IH]; [reflexivity|].
  cbn [write_bytes foldr]. fold (write_bytes ws m).
  fold (write_bytes ws (store_ptr m a w)).
  unfold store_ptr in *. rewrite store_le_write_byte, IH; [reflexivity|].
  unfold sizeof_ptr in Hu. lia.
Qed.

Lemma load_ptr_write_bytes ws m a :
  Forall (fun u => fst u < a \/ a + sizeof_ptr <= fst u) ws ->
  load_ptr (write_bytes ws m) a = load_ptr m a.
Proof.
  induction 1 as [|u ws Hu _ IH]; [reflexivity|].
  cbn [write_bytes foldr]. fold (write_bytes ws m).
  unfold load_ptr in *. rewrite load_le_write_byte, IH; [reflexivity|].
  unfold sizeof_ptr in Hu. lia.
Qed.

Lemma read_byte_write_bytes ws m m' p :
  read_byte m' p = read_byte m p ->
  read_byte (write_bytes ws m') p = read_byte (write_bytes ws m) p.
Proof.
  intros Heq. induction ws as [|u ws IH]; [exact Heq|].
  cbn [write_bytes foldr]. fold (write_bytes ws m) (write_bytes ws m').
  destruct (Z.eq_dec (fst u) p) as [->|Hne].
  - rewrite !MemFacts.read_write_byte_same. reflexivity.
  - rewrite !MemFacts.read_write_byte_other by exact Hne. exact IH.
Qed.

End MemWrites.

Lemma payload_outside_headers b x p :
  layout_ok b -> is_header b (x - sizeof_ptr) ->
  x <= p < x + blockSize b -> ~ in_header_cell b p.
Proof.
  intros Hlay (k & Hk & Hxk) Hp (h & (j & Hj & Hh) & Hcell).
  pose proof (stride_ge _ Hlay) as Hstride.
  destruct Hlay as [Hbs _ Hstr Hmb Hst _ Hfit _].
  unfold header_at, nth_header, sizeof_ptr in *.
  set (W := blockWithHeaderSize b) in *.
  destruct (Z_le_gt_dec j k) as [Hle|Hgt].
  - assert (0 <= (k - j) * W) by (apply Z.mul_nonneg_nonneg; lia). lia.
  - assert (0 <= (j - k - 1) * W) by (apply Z.mul_nonneg_nonneg; lia). lia.
Qed.

Lemma head_is_header s fl :
  pool_inv s fl -> headHeader (self s) <> NULL ->
  is_header (self s) (headHeader (self s)).
Proof.
  intros Hinv Hnz. pose proof (inv_chain _ _ Hinv) as Hch.
  destruct fl as [|a fl']; cbn [chain] in Hch; [contradiction|].
  destruct Hch as (-> & _). apply (inv_free _ _ Hinv). left.
Qed.

Section UserWrites.
Variables (s : State) (fl : list Z) (ws : list (Z * Z)).
Hypothesis Hinv : pool_inv s fl.
Hypothesis Hws : Forall (fun u => ~ in_header_cell (self s) (fst u)) ws.

Lemma writes_miss_header h :
  is_header (self s) h ->
  Forall (fun u => fst u < h \/ h + sizeof_ptr <= fst u) ws.
Proof.
  intros Hh. eapply Forall_impl; [exact Hws|].
  intros u Hu. cbn beta in *. exact (outside_cell (self s) h (fst u) Hh Hu).
Qed.

Lemma isBlockInUse_poke x :
  0 <= x < ADDR_MOD -> isBlockInUse (poke ws s) x = isBlockInUse s x.
Proof.
  intros Hx. unfold isBlockInUse.
  change (isBlockAddress (poke ws s) x) with (isBlockAddress s x).
  destruct (isBlockAddress s x) eqn:Hba; [|reflexivity].
  cbn [negb poke set_mem self mem].
  pose proof (inv_layout _ _ Hinv) as Hlay.
  rewrite (derived_header s Hlay x Hx Hba).
  rewrite MemWrites.load_ptr_write_bytes; [reflexivity|].
  apply writes_miss_header.
  apply (isBlockAddress_iff s Hlay x Hx). exact Hba.
Qed.

Lemma allocate_poke :
  allocate (poke ws s) = (fst (allocate s), poke ws (snd (allocate s))).
Proof.
  pose proof (inv_unlocked _ _ Hinv) as Hmx.
  destruct (Z.eq_dec (headHeader (self s)) NULL) as [Hnull|Hnz].
  - unfold allocate, lock_guard.
    change (mutex (self (poke ws s))) with (mutex (self s)). rewrite Hmx.
    cbn [set_mutex poke set_mem self headHeader mem sys].
    rewrite Hnull, Z.eqb_refl. reflexivity.
  - rewrite (allocate_unfold s Hmx Hnz).
    rewrite (allocate_unfold (poke ws s) Hmx Hnz).
    cbn [fst snd poke set_mem set_mutex set_headHeader self mem sys
         headHeader blockInUseFlag].
    pose proof (head_is_header s fl Hinv Hnz) as Ha.
    rewrite (MemWrites.load_ptr_write_bytes ws _ _ (writes_miss_header _ Ha)).
    rewrite (MemWrites.store_ptr_write_bytes ws _ _ _ (writes_miss_header _ Ha)).
    reflexivity.
Qed.

Lemma deallocate_poke x :
  0 <= x < ADDR_MOD ->
  deallocate x (poke ws s)
  = (fst (deallocate x s), poke ws (snd (deallocate x s))).
Proof.
  intros Hx. pose proof (inv_unlocked _ _ Hinv) as Hmx.
  pose proof (isBlockInUse_poke x Hx) as Hsame.
  destruct (isBlockInUse s x) eqn:Huse.
  - rewrite (deallocate_unfold s x Hmx Huse).
    rewrite (deallocate_unfold (poke ws s) x Hmx Hsame).
    cbn [fst snd poke set_mem set_mutex set_headHeader self mem sys
         headHeader headerSize].
    destruct (proj1 (isBlockInUse_iff s fl Hinv x Hx) Huse) as [Hh _].
    pose proof (inv_layout _ _ Hinv) as Hlay.
    rewrite (derived_header s Hlay x Hx)
      by (apply (isBlockAddress_iff s Hlay x Hx); exact Hh).
    rewrite (MemWrites.store_ptr_write_bytes ws _ _ _ (writes_miss_header _ Hh)).
    reflexivity.
  - unfold deallocate, lock_guard.
    change (mutex (self (poke ws s))) with (mutex (self s)). rewrite Hmx.
    rewrite !isBlockInUse_set_mutex, Hsame, Huse. reflexivity.
Qed.

End UserWrites.

(** X15.  What the user stores in memory does not disturb the pool, as long
    as no store hits one of the eight header bytes of a block: on the state
    with the stores done, [isBlockInUse], [allocate] and [deallocate]
    answer as on the state without them, and leave the state they would
    have left, with the same stores done.  Stores and calls can therefore
    be interleaved in any order, and data stored in a block is still there
    after any number of calls. *)
Theorem user_stores_commute_with_calls malloc m0 bsize blocks memoryPool
    s0 s live ws :
  constructed malloc m0 bsize blocks memoryPool s0 ->
  reachable s0 s live ->
  Forall (fun u => ~ in_header_cell (self s) (fst u)) ws ->
  allocate (poke ws s) = (fst (allocate s), poke ws (snd (allocate s))) /\
  (forall x, 0 <= x < ADDR_MOD ->
     isBlockInUse (poke ws s) x = isBlockInUse s x /\
     deallocate x (poke ws s)
     = (fst (deallocate x s), poke ws (snd (deallocate x s)))) /\
  (forall p, ~ in_header_cell (self s) p ->
     Mem.read_byte (mem (snd (allocate (poke ws s)))) p
     = Mem.read_byte (mem (poke ws s)) p /\
     forall x, 0 <= x < ADDR_MOD ->
       Mem.read_byte (mem (snd (deallocate x (poke ws s)))) p
       = Mem.read_byte (mem (poke ws s)) p).
Proof.
  intros Hcons Hreach Hws.
  destruct (reachable_inv _ _ _ _ _ _ Hcons s live Hreach)
    as (fl & Hinv & _).
  split; [exact (allocate_poke s fl ws Hinv Hws)|].
  split; [intros x Hx; split;
          [exact (isBlockInUse_poke s fl ws Hinv Hws x Hx)
          |exact (deallocate_poke s fl ws Hinv Hws x Hx)]|].
  assert (Hs0 : forall p, ~ in_header_cell (self s) p ->
                         ~ in_header_cell (self s0) p).
  { destruct (reachable_inv _ _ _ _ _ _ Hcons s live Hreach)
      as (_ & _ & _ & Hsame & _).
    intros p Hp (h & Hh & Hc). apply Hp. exists h. split; [|exact Hc].
    exact (same_layout_header _ _ _ Hsame Hh). }
  intros p Hp. split; [|intros x Hx].
  - rewrite (allocate_poke s fl ws Hinv Hws). cbn [snd poke set_mem mem].
    apply MemWrites.read_byte_write_bytes.
    destruct (allocate s) as [r s'] eqn:Hrun. cbn [snd].
    rewrite (reachable_bytes _ _ _ _ _ _ Hcons s' _
               (reach_allocate s0 s live r s' Hreach Hrun) p (Hs0 p Hp)).
    symmetry.
    exact (reachable_bytes _ _ _ _ _ _ Hcons s live Hreach p (Hs0 p Hp)).
  - rewrite (deallocate_poke s fl ws Hinv Hws x Hx). cbn [snd poke set_mem mem].
    apply MemWrites.read_byte_write_bytes.
    destruct (deallocate x s) as [r s'] eqn:Hrun. cbn [snd].
    rewrite (reachable_bytes _ _ _ _ _ _ Hcons s' _
               (reach_deallocate s0 s live x r s' Hreach Hx Hrun) p (Hs0 p Hp)).
    symmetry.
    exact (reachable_bytes _ _ _ _ _ _ Hcons s live Hreach p (Hs0 p Hp)).
Qed.

Lemma user_stores_commute_with_calls_witness :
  allocate (poke [(4128, 65); (4143, 255)] sample_pool)
  = (fst (allocate sample_pool),
     poke [(4128, 65); (4143, 255)] (snd (allocate sample_pool))) /\
  (forall x, 0 <= x < ADDR_MOD ->
     isBlockInUse (poke [(4128, 65); (4143, 255)] sample_pool) x
     = isBlockInUse sample_pool x /\
     deallocate x (poke [(4128, 65); (4143, 255)] sample_pool)
     = (fst (deallocate x sample_pool),
        poke [(4128, 65); (4143, 255)] (snd (deallocate x sample_pool)))) /\
  (forall p, ~ in_header_cell (self sample_pool) p ->
     Mem.read_byte
       (mem (snd (allocate (poke [(4128, 65); (4143, 255)] sample_pool)))) p
     = Mem.read_byte (mem (poke [(4128, 65); (4143, 255)] sample_pool)) p /\
     forall x, 0 <= x < ADDR_MOD ->
       Mem.read_byte
         (mem (snd (deallocate x
                      (poke [(4128, 65); (4143, 255)] sample_pool)))) p
       = Mem.read_byte (mem (poke [(4128, 65); (4143, 255)] sample_pool)) p).
Proof.
  apply (user_stores_commute_with_calls (fun _ => 4096) ∅ 16 4 NULL
           sample_fresh sample_pool {[4128]} [(4128, 65); (4143, 255)]
           sample_fresh_constructed sample_pool_reachable).
  destruct (reachable_inv _ _ _ _ _ _ sample_fresh_constructed
              sample_pool {[4128]} sample_pool_reachable)
    as (fl & Hinv & _).
  pose proof (inv_layout _ _ Hinv) as Hlay.
  assert (Hh : is_header (self sample_pool) (4128 - sizeof_ptr)).
  { exists 1. vm_compute. repeat split; discriminate. }
  repeat constructor; cbn [fst].
  - apply (payload_outside_headers _ 4128 4128 Hlay Hh). vm_compute.
    split; [discriminate | reflexivity].
  - apply (payload_outside_headers _ 4128 4143 Hlay Hh). vm_compute.
    split; [discriminate | reflexivity].
Defined.
